(** * observable-worker: the Remote proxy, the migrating exposer, the
      registry and the web-lock observable

    A shallow embedding of [src/wrap.ts] and [src/migrating.ts].  The two
    files are written against RxJS 7, promises and the Web Locks API; the
    part of those that the code relies on is modelled the way the
    libraries implement it:

    - a [Subscriber] ignores every notification once it is stopped;
    - [error] and [complete] stop the subscriber and then unsubscribe it,
      which runs the teardown registered for the subscription;
    - a teardown that is added to an already closed subscription runs at
      once;
    - [observable.subscribe(subscriber)] called with a [Subscriber]
      returns that very subscriber;
    - an operator's subscriber is a child subscription of its
      destination and is unsubscribed with it.

    Every object that the source shares by reference (subscriptions,
    returned call objects) lives in a store of the state and is named by
    its index there.  What the outside does (the channel delivers a
    response, a source emits, the lock manager grants a request, the
    caller subscribes or cancels) is an event, and each model is the
    step function of the code's reaction to one event.  The inbound
    stream of a channel is taken to stay open. *)

From stdpp Require Import gmap strings list fin_maps.
From Stdlib Require Import ZArith Lia.

Open Scope Z_scope.
Open Scope nat_scope.
Open Scope string_scope.
Open Scope list_scope.

(** ** JavaScript values that only travel through the code *)

Inductive Value : Type :=
| VUndefined
| VNum (z : Z)
| VStr (s : string).

#[global] Instance Value_eq_dec : EqDecision Value.
Proof. solve_decision. Defined.

(** What a subscriber's [error] handler (or a promise's rejection) can
    receive in this code base. *)
Inductive Err : Type :=
| JsError (message : string)      (* new Error(message) *)
| EmptyError                      (* rxjs EmptyError, from firstValueFrom *)
| AbortError                      (* DOMException raised by an aborted signal *)
| Thrown (v : Value).             (* a value carried by an "E" notification *)

#[global] Instance Err_eq_dec : EqDecision Err.
Proof. solve_decision. Defined.

(** ** The fragment of RxJS the sources rely on *)

Module Rx.

(** ObservableNotification: kind "N", "E" or "C". *)
Inductive Notification (A : Type) : Type :=
| NextN (v : A)
| ErrorN (e : Err)
| CompleteN.
Arguments NextN {A} v.
Arguments ErrorN {A} e.
Arguments CompleteN {A}.

#[global] Instance Notification_eq_dec {A} `{EqDecision A} :
  EqDecision (Notification A).
Proof. solve_decision. Defined.

Definition is_terminal {A} (n : Notification A) : bool :=
  match n with NextN _ => false | _ => true end.

(** A subscriber: whether it is stopped (after [error], [complete] or
    [unsubscribe]) and what its destination has been handed so far. *)
Record Subscriber (A : Type) : Type := mkSubscriber {
  stopped : bool;
  received : list (Notification A)
}.
Arguments mkSubscriber {A} _ _.
Arguments stopped {A} _.
Arguments received {A} _.

Definition fresh {A} : Subscriber A := mkSubscriber false [].

(** Subscriber.next / error / complete: dropped when stopped; a
    terminal notification stops the subscriber. *)
Definition notify {A} (n : Notification A) (s : Subscriber A) : Subscriber A :=
  if stopped s then s
  else mkSubscriber (is_terminal n) (received s ++ [n]).

(** Subscription.unsubscribe on the subscriber. *)
Definition unsubscribe {A} (s : Subscriber A) : Subscriber A :=
  mkSubscriber true (received s).

End Rx.

Import Rx.

(** ** wrap.ts: the Remote proxy *)

Module Wrap.

(** A property key handed to the proxy's [get] trap. *)
Inductive PropertyKey : Type :=
| PString (s : string)
| PSymbol (n : nat).

(** [string | number], the result type of [generateId]. *)
Inductive Id : Type :=
| IdStr (s : string)
| IdNum (z : Z).

#[global] Instance Id_eq_dec : EqDecision Id.
Proof. solve_decision. Defined.

(** Request: kind "S" (start) or kind "U" (stop). *)
Inductive Request : Type :=
| Start (id : Id) (command : string) (data : list Value)
| Stop (id : Id).

#[global] Instance Request_eq_dec : EqDecision Request.
Proof. solve_decision. Defined.

(** Response: a notification tagged with an id. *)
Record Response : Type := mkResponse {
  rid : Id;
  rnote : Notification Value
}.

(** incrementingIdGenerator: [id++] on a JavaScript number, which stops
    growing at 2^53. *)
Definition incrementingIdGenerator (n : nat) : Id :=
  IdNum (Z.min (Z.of_nat n) (2 ^ 53)).

(** How a subscription of the inner observable came about:
    [call.subscribe(...)] or [firstValueFrom(observable)] behind the lazy
    promise. *)
Inductive Path : Type := StreamPath | PromisePath.

#[global] Instance Path_eq_dec : EqDecision Path.
Proof. solve_decision. Defined.

(** One run of the subscribe function of [new Observable(...)]. *)
Record Sub : Type := mkSub {
  sid : Id;
  scall : nat;
  spath : Path;
  subscriber : Subscriber Value
}.

(** The [ObservableAndPromise] returned by one invocation.  [cpromise]
    is the state of [PLazy]: the subscription made by [firstValueFrom]
    once [then] has been called. *)
Record Call : Type := mkCall {
  ccommand : string;
  cdata : list Value;
  cpromise : option nat
}.

Record State : Type := mkState {
  closed : bool;            (* the [closed] subject has completed *)
  conn_closed : nat;        (* calls of connection.close() *)
  sent : list Request;      (* calls of connection.send, in order *)
  calls : list Call;
  subs : list Sub;
  idCalls : nat             (* calls of generateId so far *)
}.

Definition init : State := mkState false 0 [] [] [] 0.

(** What the promise made by [firstValueFrom] for subscription [s] has
    settled to: the first value, the error, or EmptyError when the
    stream completed without a value. *)
Definition promise_state (s : Sub) : option (Value + Err) :=
  match received (subscriber s) with
  | [] => None
  | NextN v :: _ => Some (inl v)
  | ErrorN e :: _ => Some (inr e)
  | CompleteN :: _ => Some (inr EmptyError)
  end.

Inductive Event : Type :=
| Get (p : PropertyKey)                      (* proxy[p], not invoked *)
| Invoke (p : PropertyKey) (data : list Value) (* proxy[p](...data) *)
| Subscribe (c : nat)                        (* calls[c].subscribe(o) *)
| Then (c : nat)                             (* calls[c].then(...) *)
| Unsubscribe (s : nat)                      (* subs[s].unsubscribe() *)
| Receive (r : Response)                     (* connection.observe emits *)
| Close.                                     (* remote.close() *)

Definition closedError : Err := JsError "This remote is closed.".
Definition symbolError : Err := JsError "No symbol calls on a proxy.".

(** The [get] trap: the command the returned function is closed over. *)
Definition proxy_get (p : PropertyKey) : Err + string :=
  match p with
  | PSymbol _ => inl symbolError
  | PString command => inr command
  end.

Definition is_open (s : Sub) : bool := negb (stopped (subscriber s)).

(** The teardown returned by the subscribe function:
    [subscription.unsubscribe()] (the subscriber itself, already closed
    when the teardown runs) and [connection.send({kind: "U", id})]. *)
Definition teardown (s : Sub) : list Request := [Stop (sid s)].

Definition with_subscriber (s : Sub) (b : Subscriber Value) : Sub :=
  mkSub (sid s) (scall s) (spath s) b.

(** The messages a subscriber's change calls for: the teardown runs when
    the subscription goes from open to closed. *)
Definition settle (s : Sub) (b : Subscriber Value) : Sub * list Request :=
  (with_subscriber s b,
   if is_open s && stopped b then teardown s else []).

(** A notification reaches subscriber [s].  On the promise path the
    [next] handler of [firstValueFrom] resolves and unsubscribes. *)
Definition deliver (n : Notification Value) (s : Sub) : Sub * list Request :=
  let b := notify n (subscriber s) in
  match spath s, n with
  | PromisePath, NextN _ => settle s (unsubscribe b)
  | _, _ => settle s b
  end.

(** filter(response => response.id === id), dematerialize() *)
Definition on_response (r : Response) (s : Sub) : Sub * list Request :=
  if decide (rid r = sid s) then deliver (rnote r) s else (s, []).

(** Run [f] over every subscription, in subscription order, collecting
    the messages sent. *)
Fixpoint sweep (f : Sub -> Sub * list Request) (l : list Sub)
  : list Sub * list Request :=
  match l with
  | [] => ([], [])
  | s :: l' =>
      let '(s', out) := f s in
      let '(l'', out') := sweep f l' in
      (s' :: l'', out ++ out')
  end.

Section WithGenerator.

(** [generateId]: the result of its n-th call. *)
Variable generateId : nat -> Id.

(** The subscribe function of [new Observable(subscriber => ...)]. *)
Definition subscribe (path : Path) (c : nat) (call : Call) (st : State)
  : State :=
  let id := generateId (idCalls st) in
  let s0 := mkSub id c path fresh in
  (* takeUntil subscribes its notifier first: a completed [closed]
     subject lets concatWith go on to throwError at once *)
  let b := if closed st then notify (ErrorN closedError) fresh else fresh in
  let s1 := with_subscriber s0 b in
  (* connection.send({kind: "S", ...}), then the returned teardown is
     added to the subscriber: it runs at once when that is closed *)
  let out := Start id (ccommand call) (cdata call)
             :: (if stopped b then teardown s1 else []) in
  mkState (closed st) (conn_closed st) (sent st ++ out) (calls st)
          (subs st ++ [s1]) (S (idCalls st)).

Definition step (st : State) (e : Event) : State :=
  match e with
  | Get _ => st
  | Invoke p data =>
      match proxy_get p with
      | inl _ => st
      | inr command =>
          mkState (closed st) (conn_closed st) (sent st)
                  (calls st ++ [mkCall command data None])
                  (subs st) (idCalls st)
      end
  | Subscribe c =>
      match calls st !! c with
      | Some call => subscribe StreamPath c call st
      | None => st
      end
  | Then c =>
      match calls st !! c with
      | Some call =>
          match cpromise call with
          | Some _ => st
          | None =>
              let st' := subscribe PromisePath c call st in
              mkState (closed st') (conn_closed st') (sent st')
                      (<[c := mkCall (ccommand call) (cdata call)
                                     (Some (length (subs st)))]> (calls st'))
                      (subs st') (idCalls st')
          end
      | None => st
      end
  | Unsubscribe k =>
      match subs st !! k with
      | Some s =>
          (* the caller holds no handle on the subscriber that
             firstValueFrom creates *)
          match spath s with
          | StreamPath =>
              let '(s', out) := settle s (unsubscribe (subscriber s)) in
              mkState (closed st) (conn_closed st) (sent st ++ out)
                      (calls st) (<[k := s']> (subs st)) (idCalls st)
          | PromisePath => st
          end
      | None => st
      end
  | Receive r =>
      let '(l, out) := sweep (on_response r) (subs st) in
      mkState (closed st) (conn_closed st) (sent st ++ out) (calls st) l
              (idCalls st)
  | Close =>
      (* closed.complete(): a subject completes its observers once *)
      let '(l, out) :=
        if closed st then (subs st, [])
        else sweep (deliver (ErrorN closedError)) (subs st) in
      mkState true (S (conn_closed st)) (sent st ++ out) (calls st) l
              (idCalls st)
  end.

(** The error thrown to the caller of the event, if any. *)
Definition throws (e : Event) : option Err :=
  match e with
  | Get p | Invoke p _ =>
      match proxy_get p with inl err => Some err | inr _ => None end
  | _ => None
  end.

Definition run (st : State) (tr : list Event) : State :=
  fold_left step tr st.

End WithGenerator.

(** ** Notions the properties of the proxy are stated with *)

(** Stop messages carrying [i] among [l]. *)
Definition stops_for (i : Id) (l : list Request) : nat :=
  length (filter (fun r => r = Stop i) l).

(** Subscriptions with id [i] among [l] that have been torn down. *)
Definition torn_down (i : Id) (l : list Sub) : nat :=
  length (filter (fun s => sid s = i /\ is_open s = false) l).

(** [f] sends one Stop for a subscription exactly when it tears it
    down. *)
Definition accounts (f : Sub -> Sub * list Request) : Prop :=
  forall s i, stops_for i (f s).2 + torn_down i [s] = torn_down i [(f s).1].

(** Every Stop message is matched by a torn down subscription. *)
Definition accounted (st : State) : Prop :=
  forall i, stops_for i (sent st) = torn_down i (subs st).

(** Once the remote is closed no subscription is left open. *)
Definition quiet (st : State) : Prop :=
  closed st = true ->
  Forall (fun s => stopped (subscriber s) = true) (subs st).

(** The command and arguments of every invocation of [tr], in order. *)
Definition invoked (tr : list Event) : list (string * list Value) :=
  omap (fun e => match e with
                 | Invoke (PString command) data => Some (command, data)
                 | _ => None
                 end) tr.

(** What each returned call object is closed over. *)
Definition closures (st : State) : list (string * list Value) :=
  (fun c => (ccommand c, cdata c)) <$> calls st.


(** Every message has an invocation behind it. *)
Definition grounded (st : State) : Prop :=
  (subs st <> [] -> calls st <> []) /\
  Forall (fun r => calls st <> [] /\
                   forall id c d, r = Start id c d -> (c, d) ∈ closures st)
         (sent st).

(** Every Stop message comes after a Start message with its id. *)
Definition stop_follows_start (l : list Request) : Prop :=
  forall n i, l !! n = Some (Stop i) ->
    exists m c d, m < n /\ l !! m = Some (Start i c d).

(** The Start message of every subscription has been sent. *)
Definition all_started (st : State) : Prop :=
  forall s, s ∈ subs st ->
    exists m c d, sent st !! m = Some (Start (sid s) c d).

(** A subscription made for the lazy promise that is still open has
    been handed nothing. *)
Definition promises_pending (st : State) : Prop :=
  forall s, s ∈ subs st -> spath s = PromisePath -> is_open s = true ->
    received (subscriber s) = [].

(** What the promise of [firstValueFrom] settles to on a notification. *)
Definition settlement (n : Notification Value) : Value + Err :=
  match n with
  | NextN v => inl v
  | ErrorN e => inr e
  | CompleteN => inr EmptyError
  end.

(** Response [r] ends subscription [s]: [s] is open, the ids agree, and
    the notification is terminal or [s] is the subscription made by
    [firstValueFrom], which unsubscribes on its first value. *)
Definition ended_by (r : Response) (s : Sub) : bool :=
  is_open s && bool_decide (rid r = sid s)
  && (is_terminal (rnote r) || bool_decide (spath s = PromisePath)).

End Wrap.

(** ** migrating.ts: exposeMigrating *)

Module Migrating.

(** An event of [coordinator.backEnd]: ["added"] carries a channel,
    anything else is handled by the [else] branch. *)
Inductive Action : Type :=
| Added (id : string) (channel : nat)
| Removed (id : string).

Definition action_id (a : Action) : string :=
  match a with Added id _ => id | Removed id => id end.

(** ValueOrFactory<Observable<T>, [unknown]>, with targets named by a
    number. *)
Inductive TargetConfig : Type :=
| TValue (t : nat)
| TFactory (f : string -> nat).

Definition callOrGet (c : TargetConfig) (id : string) : nat :=
  match c with TValue t => t | TFactory f => f id end.

(** A [DirectReceiver] together with the subscription that
    [receiver.subscribe()] returned. *)
Record Receiver : Type := mkReceiver {
  rchannel : nat;
  rtarget : nat;
  rlog : option bool;
  rsubscribed : bool
}.

Definition unsubscribe_receiver (r : Receiver) : Receiver :=
  mkReceiver (rchannel r) (rtarget r) (rlog r) false.

Record Config : Type := mkConfig {
  target : TargetConfig;
  log : option bool
}.

Record State : Type := mkState {
  clients : gmap string nat;     (* Map<string, Subscription> *)
  receivers : list Receiver;     (* every subscription created so far *)
  cancelled : bool               (* the subscription exposeMigrating returned *)
}.

Definition init : State := mkState ∅ [] false.

Inductive Event : Type :=
| Emit (a : Action)     (* coordinator.backEnd emits *)
| Cancel.               (* the returned subscription is unsubscribed *)

(** The [next] handler given to [backEnd.subscribe]. *)
Definition on_action (cfg : Config) (a : Action) (st : State) : State :=
  match a with
  | Added id channel =>
      let t := callOrGet (target cfg) id in
      let receiver := mkReceiver channel t (log cfg) true in
      mkState (<[id := length (receivers st)]> (clients st))
              (receivers st ++ [receiver])
              (cancelled st)
  | Removed id =>
      let rs :=
        match clients st !! id with
        | Some k => alter unsubscribe_receiver k (receivers st)
        | None => receivers st
        end in
      mkState (delete id (clients st)) rs (cancelled st)
  end.

Definition step (cfg : Config) (st : State) (e : Event) : State :=
  match e with
  | Emit a => if cancelled st then st else on_action cfg a st
  | Cancel => mkState (clients st) (receivers st) true
  end.

Definition run (cfg : Config) (st : State) (tr : list Event) : State :=
  fold_left (step cfg) tr st.

(** Exposer [k] is still subscribed. *)
Definition active (st : State) (k : nat) : bool :=
  match receivers st !! k with
  | Some r => rsubscribed r
  | None => false
  end.

(** Every entry of the map names an exposer that is still subscribed,
    and no two entries name the same one. *)
Definition live_clients (st : State) : Prop :=
  (forall id k, clients st !! id = Some k -> active st k = true) /\
  (forall id1 id2 k,
      clients st !! id1 = Some k -> clients st !! id2 = Some k -> id1 = id2).

(** Exposer [k] is subscribed and no entry of the map names it. *)
Definition orphaned (k : nat) (st : State) : Prop :=
  active st k = true /\ forall id, clients st !! id <> Some k.

End Migrating.

(** ** migrating.ts: registry *)

Module Registry.

(** How a source ends, when it does. *)
Inductive End : Type :=
| Completes
| Fails (e : Err).

(** [allowIncorrectIds?: boolean | undefined] *)
Record RegistryOptions : Type := mkOptions {
  allowIncorrectIds : option bool
}.

(** JavaScript truthiness of [options.allowIncorrectIds]. *)
Definition truthy (o : option bool) : bool :=
  match o with Some true => true | _ => false end.

Definition removeError : Err :=
  JsError "Tried to remove a non existent observable from a registry.".

Section WithTypes.

Context {K V : Type} `{Countable K}.

(** An observable handed to [add]: what it emits while it is being
    subscribed, and whether it ends there.  What it emits later comes
    as events. *)
Record Source : Type := mkSource {
  sync_values : list V;
  sync_end : option End
}.

Inductive RegistryAction : Type :=
| Add (key : K) (observable : Source)
| Delete (key : K).

(** The subscriber that mergeMap creates for one inner observable of
    an [add]; it is also the [subscription] stored in the map.
    [ihasTeardown]: the function returned by the inner subscribe
    function has been added to it. *)
Record Inner : Type := mkInner {
  ikey : K;
  iclosed : bool;
  ihasTeardown : bool
}.

Record State : Type := mkState {
  observables : gmap K nat;      (* Map<K, Subscription> *)
  inners : list Inner;
  active : Z;                    (* mergeMap's count of inner subscriptions *)
  isComplete : bool;             (* the stream of actions has completed *)
  out : Subscriber (K * V)       (* the consumer of the merged stream *)
}.

Definition init : State := mkState ∅ [] 0%Z false fresh.

Inductive Event : Type :=
| Act (a : RegistryAction)           (* the stream of actions emits *)
| ActionsComplete
| ActionsError (e : Err)
| SourceNext (i : nat) (v : V)       (* the source of inner [i] emits *)
| SourceComplete (i : nat)
| SourceError (i : nat) (e : Err)
| Cancel.                            (* the consumer unsubscribes *)

Definition set_observables (m : gmap K nat) (st : State) : State :=
  mkState m (inners st) (active st) (isComplete st) (out st).
Definition set_inners (l : list Inner) (st : State) : State :=
  mkState (observables st) l (active st) (isComplete st) (out st).
Definition set_active (n : Z) (st : State) : State :=
  mkState (observables st) (inners st) n (isComplete st) (out st).
Definition set_out (o : Subscriber (K * V)) (st : State) : State :=
  mkState (observables st) (inners st) (active st) (isComplete st) o.

Definition inner_open (st : State) (i : nat) : bool :=
  match inners st !! i with
  | Some x => negb (iclosed x)
  | None => false
  end.

(** The finalizers of an inner subscriber that is being closed: the
    teardown, once it has been added, does [observables.delete(key)]
    ([subscription.unsubscribe()] finds the subscriber closed). *)
Definition finalize (x : Inner) (m : gmap K nat) : gmap K nat :=
  if iclosed x then m
  else if ihasTeardown x then delete (ikey x) m else m.

Definition close (x : Inner) : Inner :=
  mkInner (ikey x) true (ihasTeardown x).

(** [subscription.unsubscribe()] on inner [i]. *)
Definition close_inner (i : nat) (st : State) : State :=
  match inners st !! i with
  | Some x =>
      set_inners (<[i := close x]> (inners st))
        (set_observables (finalize x (observables st)) st)
  | None => st
  end.

(** The consumer's subscriber has closed: every inner subscriber is a
    child subscription of it and is unsubscribed in turn. *)
Definition close_all (st : State) : State :=
  set_inners (close <$> inners st)
    (set_observables
       (fold_left (fun m x => finalize x m) (inners st) (observables st))
       st).

(** A notification for the consumer; a terminal one closes it. *)
Definition emit (n : Notification (K * V)) (st : State) : State :=
  let o := notify n (out st) in
  let st' := set_out o st in
  if negb (stopped (out st)) && stopped o then close_all st' else st'.

(** mergeInternals' checkComplete *)
Definition checkComplete (st : State) : State :=
  if isComplete st && Z.eqb (active st) 0 then emit CompleteN st else st.

(** The source of inner [i] emits [v]: map to [[key, v]], pass on. *)
Definition inner_next (i : nat) (v : V) (st : State) : State :=
  match inners st !! i with
  | Some x => if iclosed x then st else emit (NextN (ikey x, v)) st
  | None => st
  end.

(** The source of inner [i] completes: the inner subscriber notes it,
    unsubscribes, and its finalizer decrements [active]. *)
Definition inner_complete (i : nat) (st : State) : State :=
  if inner_open st i then
    let st1 := close_inner i st in
    checkComplete (set_active (active st1 - 1)%Z st1)
  else st.

(** The source of inner [i] fails: the error goes to the consumer,
    then the inner subscriber unsubscribes. *)
Definition inner_error (i : nat) (e : Err) (st : State) : State :=
  if inner_open st i then close_inner i (emit (ErrorN e) st) else st.

(** [action.observable.pipe(map(...)).subscribe(subscriber)] for inner
    [i]: what the source does while it is being subscribed. *)
Definition subscribe_source (i : nat) (src : Source) (st : State) : State :=
  let st' := fold_left (fun s v => inner_next i v s) (sync_values src) st in
  match sync_end src with
  | None => st'
  | Some Completes => inner_complete i st'
  | Some (Fails e) => inner_error i e st'
  end.

(** The returned teardown is added to inner [i], which runs it at once
    when it is closed already. *)
Definition add_teardown (i : nat) (key : K) (st : State) : State :=
  match inners st !! i with
  | Some x =>
      if iclosed x
      then set_observables (delete key (observables st)) st
      else set_inners (<[i := mkInner (ikey x) false true]> (inners st)) st
  | None => st
  end.

(** The inner observable built for [add], subscribed by mergeMap. *)
Definition add (key : K) (src : Source) (st : State) : State :=
  let i := length (inners st) in
  (* mergeMap counts the inner subscription and creates its subscriber *)
  let st1 := set_inners (inners st ++ [mkInner key false false])
               (set_active (active st + 1)%Z st) in
  let st3 := subscribe_source i src st1 in
  (* observables.set(action.key, subscription) *)
  let st4 := set_observables (<[key := i]> (observables st3)) st3 in
  add_teardown i key st4.

(** The [else] branch of the project function, and what mergeMap does
    with the observable it returns. *)
Definition delete_key (opts : RegistryOptions) (key : K) (st : State)
  : State :=
  let observable := observables st !! key in
  if negb (truthy (allowIncorrectIds opts)) && bool_decide (observable = None)
  then
    (* throwError: the inner subscription fails at once *)
    emit (ErrorN removeError) (set_active (active st + 1)%Z st)
  else
    let st1 := match observable with
               | Some i => close_inner i st
               | None => st
               end in
    (* EMPTY: subscribed and completed at once, [active] goes up and
       down again *)
    checkComplete (set_active (active st1 + 1 - 1)%Z st1).

Definition on_action (opts : RegistryOptions) (a : RegistryAction)
  (st : State) : State :=
  match a with
  | Add key src => add key src st
  | Delete key => delete_key opts key st
  end.

(** The stream of actions still delivers to mergeMap. *)
Definition listening (st : State) : bool :=
  negb (stopped (out st)) && negb (isComplete st).

Definition step (opts : RegistryOptions) (st : State) (e : Event) : State :=
  match e with
  | Act a => if listening st then on_action opts a st else st
  | ActionsComplete =>
      if listening st
      then checkComplete
             (mkState (observables st) (inners st) (active st) true (out st))
      else st
  | ActionsError e => if listening st then emit (ErrorN e) st else st
  | SourceNext i v => inner_next i v st
  | SourceComplete i => inner_complete i st
  | SourceError i e => inner_error i e st
  | Cancel =>
      if stopped (out st) then st
      else close_all (set_out (unsubscribe (out st)) st)
  end.

Definition run (opts : RegistryOptions) (st : State) (tr : list Event)
  : State :=
  fold_left (step opts) tr st.

(** The values the merged stream has emitted under [key]. *)
Definition emitted_for (key : K) (st : State) : list V :=
  omap (fun n => match n with
                 | NextN (k, v) => if decide (k = key) then Some v else None
                 | _ => None
                 end) (received (out st)).

(** ** Notions the properties of the registry are stated with *)

(** Every subscription in the map is open, is stored under the key it
    tags its values with and has its teardown registered. *)
Definition indexed (st : State) : Prop :=
  forall k i, observables st !! k = Some i ->
    exists x, inners st !! i = Some x /\ ikey x = k /\
              iclosed x = false /\ ihasTeardown x = true.

(** A consumer that has stopped leaves no inner subscription open. *)
Definition drained (st : State) : Prop :=
  stopped (out st) = true -> Forall (fun x => iclosed x = true) (inners st).

Definition consistent (st : State) : Prop := indexed st /\ drained st.

(** From [st] to [st'] the inner subscriptions keep their key and their
    teardown, and none is reopened. *)
Definition settles (st st' : State) : Prop :=
  Forall2 (fun x x' => ikey x' = ikey x /\
                       ihasTeardown x' = ihasTeardown x /\
                       (iclosed x = true -> iclosed x' = true))
          (inners st) (inners st').

(** No open inner subscription tags its values with [key]. *)
Definition muted (key : K) (st : State) : Prop :=
  Forall (fun x => ikey x = key -> iclosed x = true) (inners st).

(** Every value of the merged stream is tagged with the key of an inner
    subscription. *)
Definition tagged (st : State) : Prop :=
  forall k v, NextN (k, v) ∈ received (out st) -> k ∈ ikey <$> inners st.

End WithTypes.

Arguments Source : clear implicits.
Arguments RegistryAction : clear implicits.
Arguments Inner : clear implicits.
Arguments State K V {_ _}.
Arguments Event : clear implicits.

(** ** The scenario of key [k1] with source 1, 2, 3 *)

(** A source that emits 1, 2, 3 and has not ended: the first [n] values
    come while it is being subscribed, the others later. *)
Definition one_two_three (n : nat) : Source Z :=
  mkSource (take n [1; 2; 3]%Z) None.

(** [k1] is added with that source, the source emits what is left of
    1, 2, 3, and [k1] is deleted. *)
Definition add_then_delete (n : nat) : list (Event string Z) :=
  [Act (Add "k1" (one_two_three n))]
  ++ (SourceNext 0 <$> drop n [1; 2; 3]%Z)
  ++ [Act (Delete "k1")].

(** A source that emits 1, 2, 3 and completes, as [of(1, 2, 3)] does:
    the first [n] values come while it is being subscribed; it
    completes there too when they are all three and [sync] holds, and
    later otherwise. *)
Definition completes_within (n : nat) (sync : bool) : bool :=
  sync && Nat.leb 3 n.

Definition one_two_three_done (n : nat) (sync : bool) : Source Z :=
  mkSource (take n [1; 2; 3]%Z)
           (if completes_within n sync then Some Completes else None).

(** [k1] is added with that source, the source emits what is left of
    1, 2, 3 and completes, and [k1] is deleted. *)
Definition add_complete_delete (n : nat) (sync : bool)
  : list (Event string Z) :=
  [Act (Add "k1" (one_two_three_done n sync))]
  ++ (SourceNext 0 <$> drop n [1; 2; 3]%Z)
  ++ (if completes_within n sync then [] else [SourceComplete 0])
  ++ [Act (Delete "k1")].

End Registry.

(** ** migrating.ts: acquireWebLock and observeWebLock *)

(** The lock manager is the environment: it grants or refuses a pending
    request, and a request withdrawn by its abort signal is no longer
    pending.  Promise reactions run as microtasks, after the event that
    settles the promise: [Settle] is the moment the promise [lock]
    settles and its reactions run.

    The state is that of one subscription: the controller, the request
    and the promise that one call of the subscribe function creates.
    Another call of [subscribe] creates its own and is another run of
    this machine; it is not an event of this one. *)

Module WebLock.

(** The request made by [navigator.locks.request(name, options, cb)], as
    the lock manager sees it. *)
Inductive Request : Type :=
| Idle                    (* the observable is not subscribed yet *)
| Pending                 (* queued, the callback has not run *)
| Held                    (* the callback ran and its promise is open *)
| Released                (* the callback's promise has resolved *)
| Aborted                 (* withdrawn from the queue by the abort signal *)
| Rejected (e : Err).     (* refused by the lock manager *)

#[global] Instance Request_eq_dec : EqDecision Request.
Proof. solve_decision. Defined.

(** The promise [lock] returned by [acquireWebLock]; when fulfilled its
    value is the release function [defer.resolve]. *)
Inductive LockPromise : Type :=
| Unsettled
| Fulfilled
| Failed (e : Err).

Record State : Type := mkState {
  request : Request;
  aborted : bool;               (* controller.signal.aborted *)
  lock : LockPromise;
  releasing : bool;             (* the teardown's reaction waits for [lock] *)
  releases : nat;               (* calls of the release function *)
  unhandled : list Err;         (* rejections nobody handles *)
  subscriber : Subscriber unit
}.

Definition init : State := mkState Idle false Unsettled false 0 [] fresh.

Inductive Event : Type :=
| Subscribe               (* observeWebLock(name, options).subscribe(o) *)
| Granted                 (* the lock manager runs the callback *)
| Refused (e : Err)       (* the lock manager rejects the request *)
| Settle                  (* [lock] settles and its reactions run *)
| Unsubscribe.            (* the subscription is unsubscribed *)

Definition set_request (r : Request) (st : State) : State :=
  mkState r (aborted st) (lock st) (releasing st) (releases st)
          (unhandled st) (subscriber st).
Definition set_lock (l : LockPromise) (st : State) : State :=
  mkState (request st) (aborted st) l (releasing st) (releases st)
          (unhandled st) (subscriber st).
Definition set_releasing (b : bool) (st : State) : State :=
  mkState (request st) (aborted st) (lock st) b (releases st)
          (unhandled st) (subscriber st).
Definition set_subscriber (b : Subscriber unit) (st : State) : State :=
  mkState (request st) (aborted st) (lock st) (releasing st) (releases st)
          (unhandled st) b.
Definition add_unhandled (e : Err) (st : State) : State :=
  mkState (request st) (aborted st) (lock st) (releasing st) (releases st)
          (unhandled st ++ [e]) (subscriber st).

(** controller.abort(): a request that is still queued is withdrawn. *)
Definition abort (st : State) : State :=
  mkState (match request st with Pending => Aborted | r => r end)
          true (lock st) (releasing st) (releases st) (unhandled st)
          (subscriber st).

(** defer.resolve(): the callback's promise resolves and the lock
    manager frees the lock. *)
Definition release (st : State) : State :=
  mkState (match request st with Held => Released | r => r end)
          (aborted st) (lock st) (releasing st) (S (releases st))
          (unhandled st) (subscriber st).

(** lock.then(release => release()), with no rejection handler. *)
Definition then_release (st : State) : State :=
  match lock st with
  | Unsettled => set_releasing true st
  | Fulfilled => release st
  | Failed e => add_unhandled e st
  end.

(** The teardown returned by the subscribe function. *)
Definition teardown (st : State) : State := then_release (abort st).

(** A notification for the subscriber; the teardown runs when that
    closes it. *)
Definition tell (n : Notification unit) (st : State) : State :=
  let b := notify n (subscriber st) in
  let st' := set_subscriber b st in
  if negb (stopped (subscriber st)) && stopped b then teardown st' else st'.

(** How [lock] is going to settle, as [acquireWebLock] wires it to the
    request: resolved by the callback, rejected with the request. *)
Definition outcome (r : Request) : option LockPromise :=
  match r with
  | Held | Released => Some Fulfilled
  | Aborted => Some (Failed AbortError)
  | Rejected e => Some (Failed e)
  | Idle | Pending => None
  end.

(** The reactions registered on [lock], in the order of registration:
    [lock.then(() => subscriber.next()).catch(error =>
    subscriber.error(error))] from the subscribe function, then the one
    of the teardown if that ran before. *)
Definition settle (st : State) : State :=
  match lock st, outcome (request st) with
  | Unsettled, Some Fulfilled =>
      let st1 := tell (NextN tt) (set_lock Fulfilled st) in
      if releasing st then release (set_releasing false st1) else st1
  | Unsettled, Some (Failed e) =>
      let st1 := tell (ErrorN e) (set_lock (Failed e) st) in
      if releasing st then add_unhandled e (set_releasing false st1) else st1
  | _, _ => st
  end.

Definition step (st : State) (e : Event) : State :=
  match e with
  | Subscribe =>
      match request st with
      | Idle => set_request Pending st
      | _ => st
      end
  | Granted =>
      (* the callback: resolve(defer.resolve); return defer.promise *)
      match request st with
      | Pending => set_request Held st
      | _ => st
      end
  | Refused e =>
      (* .catch(e => { reject(e) }) *)
      match request st with
      | Pending => set_request (Rejected e) st
      | _ => st
      end
  | Settle => settle st
  | Unsubscribe =>
      match request st with
      | Idle => st
      | _ =>
          if stopped (subscriber st) then st
          else teardown (set_subscriber (unsubscribe (subscriber st)) st)
      end
  end.

Definition run (st : State) (tr : list Event) : State := fold_left step tr st.

(** ** Notions the properties of the lock observable are stated with *)

(** How the promise, the signal and the subscriber stand for each state
    of the request. *)
Definition coherent (st : State) : Prop :=
  match request st, lock st with
  | Idle, Unsettled | Pending, Unsettled =>
      releasing st = false /\ subscriber st = fresh /\ aborted st = false
  | Held, Unsettled | Rejected _, Unsettled =>
      received (subscriber st) = [] /\
      releasing st = stopped (subscriber st)
  | Aborted, Unsettled =>
      releasing st = true /\ subscriber st = mkSubscriber true [] /\
      aborted st = true
  | Held, Fulfilled =>
      releasing st = false /\
      subscriber st = mkSubscriber false [NextN tt]
  | Released, Fulfilled =>
      releasing st = false /\ stopped (subscriber st) = true /\
      (received (subscriber st) = [] \/
       received (subscriber st) = [NextN tt])
  | Aborted, Failed e =>
      e = AbortError /\ releasing st = false /\
      subscriber st = mkSubscriber true [] /\ aborted st = true
  | Rejected e, Failed e' =>
      e' = e /\ releasing st = false /\ stopped (subscriber st) = true /\
      (received (subscriber st) = [] \/
       received (subscriber st) = [ErrorN e])
  | _, _ => False
  end.

(** The request has been withdrawn and the subscriber was handed
    nothing. *)
Definition withdrawn (st : State) : Prop :=
  request st = Aborted /\ subscriber st = mkSubscriber true [].

(** The books of one subscription: the rejections left unhandled, the
    calls of the release function, the abort signal. *)
Definition ledger (st : State) : Prop :=
  unhandled st = match lock st with Failed e => [e] | _ => [] end /\
  releases st = match request st with Released => 1 | _ => 0 end /\
  aborted st = stopped (subscriber st).

(** The request has come to its end. *)
Definition over (st : State) : Prop :=
  match request st with
  | Released | Aborted | Rejected _ => True
  | Idle | Pending | Held => False
  end.

End WebLock.

(** ** migrating.ts: closing *)

Module Closing.

Section WithFactory.

Context {T : Type}.

(** [factory]: the result of its n-th call. *)
Variable factory : nat -> T.

(** One run of the subscribe function: the value it made and the
    subscriber it handed it to. *)
Record Sub : Type := mkSub {
  value : T;
  subscriber : Subscriber T
}.

Record State : Type := mkState {
  made : nat;              (* calls of factory *)
  closed_with : list T;    (* arguments of the calls of close, in order *)
  subs : list Sub
}.

Definition init : State := mkState 0 [] [].

Inductive Event : Type :=
| Subscribe (once : bool)   (* subscribe; [once]: the consumer unsubscribes
                               from within its next handler *)
| Unsubscribe (k : nat).    (* subs[k].unsubscribe() *)

Definition step (st : State) (e : Event) : State :=
  match e with
  | Subscribe once =>
      let v := factory (made st) in
      (* subscriber.next(value) *)
      let b := notify (NextN v) fresh in
      let b' := if once then unsubscribe b else b in
      (* the returned teardown is added: it runs at once on a subscriber
         that is closed already *)
      mkState (S (made st))
              (closed_with st ++ (if stopped b' then [v] else []))
              (subs st ++ [mkSub v b'])
  | Unsubscribe k =>
      match subs st !! k with
      | Some s =>
          if stopped (subscriber s) then st
          else mkState (made st) (closed_with st ++ [value s])
                       (<[k := mkSub (value s) (unsubscribe (subscriber s))]>
                          (subs st))
      | None => st
      end
  end.

Definition run (st : State) (tr : list Event) : State := fold_left step tr st.

(** The values of the subscriptions that have ended. *)
Definition ended (l : list Sub) : list T :=
  value <$> filter (fun s => stopped (subscriber s) = true) l.

(** Each subscription holds the value of its own call of the factory,
    has been handed that value and nothing else. *)
Definition served (st : State) : Prop :=
  made st = length (subs st) /\
  forall k s, subs st !! k = Some s ->
    value s = factory k /\ received (subscriber s) = [NextN (factory k)].

End WithFactory.

Arguments Sub : clear implicits.
Arguments State : clear implicits.

End Closing.

(** * Properties *)

(** ** Subscribers *)

Module RxFacts.

Lemma notify_stopped {A} (n : Notification A) s :
  stopped s = true -> notify n s = s.
Proof. unfold notify. intros ->. reflexivity. Qed.

Lemma notify_terminal_stops {A} (n : Notification A) s :
  is_terminal n = true -> stopped (notify n s) = true.
Proof. unfold notify. destruct (stopped s) eqn:E; simpl; auto. Qed.

Lemma notify_keeps_stopped {A} (n : Notification A) s :
  stopped s = true -> stopped (notify n s) = true.
Proof. intros Hs. rewrite notify_stopped; auto. Qed.

End RxFacts.

(** ** The Remote proxy *)

Module WrapFacts.
Import Wrap RxFacts.

Lemma stops_for_app i l1 l2 :
  stops_for i (l1 ++ l2) = stops_for i l1 + stops_for i l2.
Proof. unfold stops_for. rewrite filter_app, length_app. reflexivity. Qed.

Lemma torn_down_app i l1 l2 :
  torn_down i (l1 ++ l2) = torn_down i l1 + torn_down i l2.
Proof. unfold torn_down. rewrite filter_app, length_app. reflexivity. Qed.

Lemma torn_down_cons i s l :
  torn_down i (s :: l) = torn_down i [s] + torn_down i l.
Proof. apply (torn_down_app i [s] l). Qed.

Lemma sweep_fst f l : (sweep f l).1 = (fun s => (f s).1) <$> l.
Proof.
  induction l as [|s l IH]; [reflexivity|].
  rewrite fmap_cons, <- IH. simpl.
  destruct (f s) as [s' o], (sweep f l) as [l' o']. reflexivity.
Qed.

Lemma sweep_out_Forall (P : Request -> Prop) f l :
  (forall s, s ∈ l -> Forall P (f s).2) -> Forall P (sweep f l).2.
Proof.
  induction l as [|s l IH]; intros Hf; [constructor|].
  simpl. pose proof (Hf s (list_elem_of_here s l)) as Hs.
  destruct (f s) as [s' o], (sweep f l) as [l' o']. simpl in *.
  apply Forall_app. split; [exact Hs|].
  apply IH. intros x Hx. apply Hf. right. exact Hx.
Qed.

Lemma sweep_accounts f l i :
  accounts f ->
  stops_for i (sweep f l).2 + torn_down i l = torn_down i (sweep f l).1.
Proof.
  intros Hf. induction l as [|s l IH]; simpl; [reflexivity|].
  specialize (Hf s i).
  destruct (f s) as [s' o]. destruct (sweep f l) as [l' o'].
  simpl in *.
  rewrite stops_for_app, (torn_down_cons i s l), (torn_down_cons i s' l').
  lia.
Qed.

Lemma torn_down_one i s :
  torn_down i [s] =
  if bool_decide (sid s = i) && stopped (subscriber s) then 1 else 0.
Proof.
  unfold torn_down, is_open. rewrite filter_cons, filter_nil.
  destruct (decide (sid s = i)) as [Heq|Hne].
  - rewrite (bool_decide_eq_true_2 _ Heq).
    destruct (stopped (subscriber s)); simpl.
    + rewrite decide_True by auto. reflexivity.
    + rewrite decide_False by (intros [_ ?]; discriminate). reflexivity.
  - rewrite (bool_decide_eq_false_2 _ Hne).
    rewrite decide_False by (intros [? _]; contradiction). reflexivity.
Qed.

Lemma stops_for_one i j :
  stops_for i [Stop j] = if bool_decide (j = i) then 1 else 0.
Proof.
  unfold stops_for. rewrite filter_cons, filter_nil.
  destruct (decide (j = i)) as [Heq|Hne].
  - rewrite (bool_decide_eq_true_2 _ Heq), decide_True by congruence.
    reflexivity.
  - rewrite (bool_decide_eq_false_2 _ Hne), decide_False by congruence.
    reflexivity.
Qed.

Lemma settle_accounts s b i :
  (stopped (subscriber s) = true -> stopped b = true) ->
  stops_for i (settle s b).2 + torn_down i [s] = torn_down i [(settle s b).1].
Proof.
  intros Hmono. unfold settle, teardown, is_open. simpl.
  rewrite !torn_down_one. simpl.
  destruct (stopped (subscriber s)) eqn:Hs; simpl.
  - rewrite Hmono by reflexivity. reflexivity.
  - destruct (stopped b); simpl; [rewrite stops_for_one|];
      case_bool_decide; reflexivity.
Qed.

Lemma deliver_accounts n : accounts (deliver n).
Proof.
  intros s i. unfold deliver.
  destruct (spath s), n; apply settle_accounts; intros Hs;
    try (apply notify_keeps_stopped; exact Hs); reflexivity.
Qed.

Lemma on_response_accounts r : accounts (on_response r).
Proof.
  intros s i. unfold on_response. case_decide.
  - apply deliver_accounts.
  - simpl. reflexivity.
Qed.

Lemma stops_for_start i id c d l :
  stops_for i (Start id c d :: l) = stops_for i l.
Proof.
  unfold stops_for. rewrite filter_cons, decide_False by discriminate.
  reflexivity.
Qed.

Lemma torn_down_insert i (l : list Sub) k s s' :
  l !! k = Some s ->
  torn_down i (<[k := s']> l) + torn_down i [s]
  = torn_down i l + torn_down i [s'].
Proof.
  intros Hk.
  rewrite <- (take_drop_middle l k s Hk) at 2.
  rewrite insert_take_drop by (eapply lookup_lt_Some; eauto).
  rewrite !torn_down_app, (torn_down_cons i s (drop (S k) l)),
    (torn_down_cons i s' (drop (S k) l)).
  lia.
Qed.

Section Runs.

Variable generateId : nat -> Id.

Abbreviation step := (Wrap.step generateId).
Abbreviation run := (Wrap.run generateId).
Abbreviation subscribe := (Wrap.subscribe generateId).

Lemma wrap_run_snoc st tr e : run st (tr ++ [e]) = step (run st tr) e.
Proof. unfold Wrap.run. rewrite fold_left_app. reflexivity. Qed.

(** Induction over the states a Remote can reach. *)
Lemma run_invariant (P : State -> Prop) :
  P init ->
  (forall st e, P st -> P (step st e)) ->
  forall tr, P (run init tr).
Proof.
  intros H0 Hstep tr. induction tr as [|e tr IH] using rev_ind.
  - exact H0.
  - rewrite wrap_run_snoc. apply Hstep, IH.
Qed.

Lemma subscribe_accounted path c call st :
  accounted st -> accounted (subscribe path c call st).
Proof.
  intros Hst i. unfold Wrap.subscribe. simpl.
  rewrite stops_for_app, torn_down_app, stops_for_start, (Hst i).
  f_equal. rewrite torn_down_one. simpl.
  destruct (closed st); simpl.
  - unfold teardown. simpl. rewrite stops_for_one.
    rewrite andb_true_r. reflexivity.
  - rewrite andb_false_r. reflexivity.
Qed.

Lemma step_accounted st e : accounted st -> accounted (step st e).
Proof.
  intros Hst. destruct e as [p|p d|c|c|k|r|]; simpl.
  - exact Hst.
  - destruct (proxy_get p); [exact Hst|]. intros i. apply (Hst i).
  - destruct (calls st !! c); [|exact Hst].
    apply subscribe_accounted, Hst.
  - destruct (calls st !! c) as [call|]; [|exact Hst].
    destruct (cpromise call); [exact Hst|].
    intros i. apply (subscribe_accounted PromisePath c call st Hst i).
  - destruct (subs st !! k) as [s|] eqn:Hk; [|exact Hst].
    destruct (spath s); [|exact Hst].
    intros i. simpl. rewrite stops_for_app.
    pose proof (torn_down_insert i (subs st) k s
                  (with_subscriber s (unsubscribe (subscriber s))) Hk) as Hi.
    pose proof (settle_accounts s (unsubscribe (subscriber s)) i
                  (fun _ => eq_refl)) as Hs.
    simpl in Hs. specialize (Hst i). lia.
  - intros i.
    pose proof (sweep_accounts (on_response r) (subs st) i
                  (on_response_accounts r)) as Hsw.
    destruct (sweep (on_response r) (subs st)) as [l o]. simpl in *.
    rewrite stops_for_app. specialize (Hst i). lia.
  - intros i. destruct (closed st).
    + simpl. rewrite app_nil_r. apply Hst.
    + pose proof (sweep_accounts (deliver (ErrorN closedError)) (subs st) i
                    (deliver_accounts _)) as Hsw.
      destruct (sweep (deliver (ErrorN closedError)) (subs st)) as [l o].
      simpl in *. rewrite stops_for_app. specialize (Hst i). lia.
Qed.

Lemma run_accounted tr : accounted (run init tr).
Proof.
  apply run_invariant; [intros i; reflexivity|].
  intros st e. apply step_accounted.
Qed.

Lemma deliver_keeps_stopped n s :
  stopped (subscriber s) = true ->
  stopped (subscriber (deliver n s).1) = true.
Proof.
  intros Hs. unfold deliver.
  destruct (spath s), n; simpl; auto using notify_keeps_stopped.
Qed.

Lemma deliver_terminal_stops n s :
  is_terminal n = true -> stopped (subscriber (deliver n s).1) = true.
Proof.
  intros Hn. unfold deliver.
  destruct (spath s), n; simpl; try discriminate;
    apply notify_terminal_stops; reflexivity.
Qed.

Lemma on_response_keeps_stopped r s :
  stopped (subscriber s) = true ->
  stopped (subscriber (on_response r s).1) = true.
Proof.
  intros Hs. unfold on_response. case_decide; [|exact Hs].
  apply deliver_keeps_stopped, Hs.
Qed.

Lemma subscribe_quiet path c call st :
  quiet st -> quiet (subscribe path c call st).
Proof.
  intros Hst Hc. simpl in *. apply Forall_app. split; [auto|].
  constructor; [|constructor]. simpl. rewrite Hc. reflexivity.
Qed.

Lemma step_quiet st e : quiet st -> quiet (step st e).
Proof.
  intros Hst. destruct e as [p|p d|c|c|k|r|]; simpl.
  - exact Hst.
  - destruct (proxy_get p); exact Hst.
  - destruct (calls st !! c); [|exact Hst].
    apply subscribe_quiet, Hst.
  - destruct (calls st !! c) as [call|]; [|exact Hst].
    destruct (cpromise call); [exact Hst|].
    exact (subscribe_quiet PromisePath c call st Hst).
  - destruct (subs st !! k) as [s|] eqn:Hk; [|exact Hst].
    destruct (spath s); [|exact Hst].
    intros Hc. simpl in *. apply Forall_insert; [auto|reflexivity].
  - intros Hc.
    pose proof (sweep_fst (on_response r) (subs st)) as Hl.
    destruct (sweep (on_response r) (subs st)) as [l o]. simpl in *.
    subst l. apply Forall_fmap.
    eapply Forall_impl; [apply Hst, Hc|].
    intros s Hs. apply on_response_keeps_stopped, Hs.
  - intros _. destruct (closed st) eqn:Hc; simpl; [auto|].
    pose proof (sweep_fst (deliver (ErrorN closedError)) (subs st)) as Hl.
    destruct (sweep (deliver (ErrorN closedError)) (subs st)) as [l o].
    simpl in *. subst l. apply Forall_fmap, Forall_forall.
    intros s _. apply deliver_terminal_stops. reflexivity.
Qed.

Lemma run_quiet tr : quiet (run init tr).
Proof.
  apply run_invariant; [intros Hc; discriminate|].
  intros st e. apply step_quiet.
Qed.

Lemma step_stays_closed st e :
  closed st = true -> closed (step st e) = true.
Proof.
  intros Hc. destruct e as [p|p d|c|c|k|r|]; simpl; auto.
  - destruct (proxy_get p); auto.
  - destruct (calls st !! c); auto.
  - destruct (calls st !! c) as [call|]; auto.
    destruct (cpromise call); auto.
  - destruct (subs st !! k) as [s|]; auto. destruct (spath s); auto.
  - destruct (sweep (on_response r) (subs st)); auto.
  - destruct (if closed st then _ else _); auto.
Qed.

Lemma step_conn_closed_mono st e :
  conn_closed st <= conn_closed (step st e).
Proof.
  destruct e as [p|p d|c|c|k|r|]; simpl; auto.
  - destruct (proxy_get p); auto.
  - destruct (calls st !! c); auto.
  - destruct (calls st !! c) as [call|]; auto.
    destruct (cpromise call); auto.
  - destruct (subs st !! k) as [s|]; auto. destruct (spath s); auto.
  - destruct (sweep (on_response r) (subs st)); auto.
  - destruct (if closed st then _ else _); simpl; lia.
Qed.

Lemma closed_after_close tr :
  Close ∈ tr ->
  closed (run init tr) = true /\ 0 < conn_closed (run init tr).
Proof.
  induction tr as [|e tr IH] using rev_ind; intros Hin.
  - inversion Hin.
  - rewrite wrap_run_snoc. apply elem_of_app in Hin as [Hin|Hin].
    + destruct (IH Hin) as [Hc Hn]. split.
      * apply step_stays_closed, Hc.
      * pose proof (step_conn_closed_mono (run init tr) e). lia.
    + apply list_elem_of_singleton in Hin. subst e. simpl.
      destruct (if closed (run init tr) then _ else _).
      simpl. split; [reflexivity|lia].
Qed.

Lemma invoked_snoc tr e :
  invoked (tr ++ [e]) = invoked tr ++ invoked [e].
Proof. unfold invoked. apply omap_app. Qed.

Lemma elem_of_invoked tr c d :
  (c, d) ∈ invoked tr <-> Invoke (PString c) d ∈ tr.
Proof.
  unfold invoked. rewrite list_elem_of_omap. split.
  - intros (e & He & Hm). destruct e as [| [c'|] d' | | | | |];
      try discriminate. injection Hm as -> ->. exact He.
  - intros He. eexists. split; [exact He|reflexivity].
Qed.

(** The call objects are exactly the invocations made so far. *)
Lemma closures_step st e :
  closures (step st e) = closures st ++ invoked [e].
Proof.
  unfold closures.
  destruct e as [p|[c'|n] d|c|c|k|r|]; simpl;
    try (rewrite app_nil_r; reflexivity).
  - rewrite fmap_app. reflexivity.
  - destruct (calls st !! c); rewrite app_nil_r; reflexivity.
  - rewrite app_nil_r.
    destruct (calls st !! c) as [call|] eqn:Hc; [|reflexivity].
    destruct (cpromise call); [reflexivity|]. simpl.
    rewrite list_fmap_insert. simpl. apply list_insert_id.
    rewrite list_lookup_fmap, Hc. reflexivity.
  - destruct (subs st !! k) as [s|]; [|rewrite app_nil_r; reflexivity].
    destruct (spath s); rewrite app_nil_r; reflexivity.
  - destruct (sweep (on_response r) (subs st)).
    rewrite app_nil_r. reflexivity.
  - destruct (if closed st then _ else _).
    rewrite app_nil_r. reflexivity.
Qed.

Lemma closures_run tr : closures (run init tr) = invoked tr.
Proof.
  induction tr as [|e tr IH] using rev_ind; [reflexivity|].
  rewrite wrap_run_snoc, closures_step, IH, invoked_snoc. reflexivity.
Qed.

Lemma closures_nonempty st : closures st <> [] <-> calls st <> [].
Proof.
  unfold closures. destruct (calls st); simpl; split; congruence.
Qed.

Lemma grounded_more st st' out :
  grounded st ->
  closures st' = closures st ->
  sent st' = sent st ++ out ->
  (subs st' <> [] -> calls st <> []) ->
  Forall (fun r => calls st <> [] /\
                   forall id c d, r = Start id c d -> (c, d) ∈ closures st)
         out ->
  grounded st'.
Proof.
  intros [Hs Hm] Hcl Hsent Hsubs Hout.
  assert (Hne : calls st' <> [] <-> calls st <> []).
  { rewrite <- !closures_nonempty, Hcl. reflexivity. }
  split.
  - intros H. apply Hne, Hsubs, H.
  - rewrite Hsent, Hcl. apply Forall_app. split.
    + eapply Forall_impl; [exact Hm|]. intros r [H1 H2].
      split; [apply Hne, H1|exact H2].
    + eapply Forall_impl; [exact Hout|]. intros r [H1 H2].
      split; [apply Hne, H1|exact H2].
Qed.

Lemma stops_grounded st f :
  grounded st ->
  (forall s r, r ∈ (f s).2 -> exists i, r = Stop i) ->
  Forall (fun r => calls st <> [] /\
                   forall id c d, r = Start id c d -> (c, d) ∈ closures st)
         (sweep f (subs st)).2.
Proof.
  intros [Hs _] Hf. apply sweep_out_Forall. intros s Hin.
  apply Forall_forall. intros r Hr.
  destruct (Hf s r Hr) as [i ->]. split.
  - apply Hs. intros Hnil. rewrite Hnil in Hin. inversion Hin.
  - intros ? ? ? ?. discriminate.
Qed.

Lemma settle_only_stops s b r : r ∈ (settle s b).2 -> exists i, r = Stop i.
Proof.
  unfold settle, teardown. simpl.
  destruct (is_open s && stopped b); intros Hr.
  - apply list_elem_of_singleton in Hr. eauto.
  - inversion Hr.
Qed.

Lemma deliver_only_stops n s r :
  r ∈ (deliver n s).2 -> exists i, r = Stop i.
Proof.
  unfold deliver. destruct (spath s), n; apply settle_only_stops.
Qed.

Lemma on_response_only_stops x s r :
  r ∈ (on_response x s).2 -> exists i, r = Stop i.
Proof.
  unfold on_response. case_decide; [apply deliver_only_stops|].
  intros Hr. inversion Hr.
Qed.

Lemma subscribe_grounded path c call st :
  calls st !! c = Some call ->
  grounded st -> grounded (subscribe path c call st).
Proof.
  intros Hc Hst.
  assert (Hne : calls st <> []).
  { intros Hnil. rewrite Hnil in Hc. discriminate. }
  assert (Hin : (ccommand call, cdata call) ∈ closures st).
  { unfold closures. apply list_elem_of_fmap. exists call.
    split; [reflexivity|]. eapply list_elem_of_lookup_2, Hc. }
  eapply grounded_more;
    [exact Hst|reflexivity|simpl; reflexivity|intros _; exact Hne|].
  constructor.
  - split; [exact Hne|]. intros ? ? ? Heq. injection Heq as _ <- <-.
    exact Hin.
  - destruct (stopped _); constructor; [|constructor].
    split; [exact Hne|]. intros ? ? ? ?. discriminate.
Qed.

Lemma step_grounded st e : grounded st -> grounded (step st e).
Proof.
  intros Hst.
  destruct e as [p|[c'|n] d|c|c|k|r|]; simpl; try exact Hst.
  - destruct Hst as [Hs Hm]. split; simpl.
    + intros _. destruct (calls st); discriminate.
    + eapply Forall_impl; [exact Hm|]. intros r [H1 H2]. split.
      * destruct (calls st); discriminate.
      * intros id c0 d0 Hr. unfold closures. simpl.
        rewrite fmap_app. apply elem_of_app. left. eapply H2, Hr.
  - destruct (calls st !! c) as [call|] eqn:Hc; [|exact Hst].
    apply subscribe_grounded; assumption.
  - destruct (calls st !! c) as [call|] eqn:Hc; [|exact Hst].
    destruct (cpromise call) eqn:Hp; [exact Hst|].
    pose proof (subscribe_grounded PromisePath c call st Hc Hst) as Hg.
    pose proof (closures_step st (Then c)) as Hcl.
    simpl in Hcl. rewrite Hc, Hp, app_nil_r in Hcl.
    eapply grounded_more; [exact Hst|exact Hcl|simpl; reflexivity| |].
    + intros _ Hnil. rewrite Hnil in Hc. discriminate.
    + destruct Hg as [_ Hg]. simpl in Hg.
      apply Forall_app in Hg as [_ Hg]. exact Hg.
  - destruct (subs st !! k) as [s|] eqn:Hk; [|exact Hst].
    destruct (spath s); [|exact Hst].
    eapply grounded_more; [exact Hst|reflexivity|simpl; reflexivity| |].
    + intros _. apply Hst. intros Hnil. rewrite Hnil in Hk. discriminate.
    + apply Forall_forall. intros r Hr.
      destruct (settle_only_stops s (unsubscribe (subscriber s)) r Hr)
        as [i ->]. split.
      * apply Hst. intros Hnil. rewrite Hnil in Hk. discriminate.
      * intros ? ? ? ?. discriminate.
  - pose proof (stops_grounded st (on_response r) Hst
                  (on_response_only_stops r)) as Hout.
    pose proof (sweep_fst (on_response r) (subs st)) as Hl.
    destruct (sweep (on_response r) (subs st)) as [l o]. simpl in *.
    eapply grounded_more;
      [exact Hst|reflexivity|simpl; reflexivity| |exact Hout].
    simpl. intros Hne. apply Hst. intros Hnil. apply Hne.
    rewrite Hl, Hnil. reflexivity.
  - destruct (closed st).
    + eapply grounded_more; [exact Hst|reflexivity|simpl; reflexivity| |].
      * apply Hst.
      * constructor.
    + pose proof (stops_grounded st (deliver (ErrorN closedError)) Hst
                    (deliver_only_stops _)) as Hout.
      pose proof (sweep_fst (deliver (ErrorN closedError)) (subs st)) as Hl.
      destruct (sweep (deliver (ErrorN closedError)) (subs st)) as [l o].
      simpl in *.
      eapply grounded_more;
        [exact Hst|reflexivity|simpl; reflexivity| |exact Hout].
      simpl. intros Hne. apply Hst. intros Hnil. apply Hne.
      rewrite Hl, Hnil. reflexivity.
Qed.

Lemma run_grounded tr : grounded (run init tr).
Proof.
  apply run_invariant; [|intros st e; apply step_grounded].
  split; [intros Hs; exfalso; apply Hs; reflexivity|constructor].
Qed.

(** C2.  When [close()] is called, every subscription that is still
    open is handed the error "This remote is closed." and is stopped
    by it. *)
Theorem close_fails_outstanding (tr : list Event) (k : nat) (s : Sub) :
  let st := run init tr in
  subs st !! k = Some s ->
  is_open s = true ->
  subs (step st Close) !! k =
    Some (with_subscriber s
            (mkSubscriber true
               (received (subscriber s) ++ [ErrorN closedError]))).
Proof.
  intros st Hk Hopen.
  assert (Hc : closed st = false).
  { destruct (closed st) eqn:Hc; [|reflexivity].
    pose proof (run_quiet tr Hc) as Hq.
    rewrite Forall_forall in Hq.
    specialize (Hq s (list_elem_of_lookup_2 _ _ _ Hk)).
    unfold is_open in Hopen. rewrite Hq in Hopen. discriminate. }
  simpl. fold st. rewrite Hc.
  pose proof (sweep_fst (deliver (ErrorN closedError)) (subs st)) as Hl.
  destruct (sweep (deliver (ErrorN closedError)) (subs st)) as [l o].
  simpl in *. subst l. rewrite list_lookup_fmap, Hk. simpl. f_equal.
  unfold is_open in Hopen. apply negb_true_iff in Hopen.
  unfold deliver, settle, notify. rewrite Hopen.
  destruct (spath s); reflexivity.
Qed.

(** C7.  The [get] trap throws on a symbol; looking a property up
    changes nothing, in particular sends nothing; and whatever is sent
    has an invocation behind it: a Start message carries the command
    and the arguments of an invocation made earlier. *)
Theorem lookup_sends_nothing :
  (forall n, proxy_get (PSymbol n) = inl symbolError) /\
  (forall n, throws (Get (PSymbol n)) = Some symbolError) /\
  (forall st p, step st (Get p) = st) /\
  (forall tr r,
      r ∈ sent (run init tr) ->
      invoked tr <> [] /\
      forall id c d, r = Start id c d -> Invoke (PString c) d ∈ tr).
Proof.
  repeat split; try reflexivity.
  - destruct (run_grounded tr) as [_ Hm]. rewrite Forall_forall in Hm.
    destruct (Hm r H) as [Hne _].
    rewrite <- closures_run. apply closures_nonempty, Hne.
  - intros id c d Hr.
    destruct (run_grounded tr) as [_ Hm]. rewrite Forall_forall in Hm.
    destruct (Hm r H) as [_ Hs].
    apply elem_of_invoked. rewrite <- closures_run. eapply Hs, Hr.
Qed.

(** C10.  Once [close()] has been called, subscribing to a call, or
    awaiting it for the first time, fails within the subscription
    itself with "This remote is closed."; the Start message and then
    the Stop message of that call are sent all the same, on a
    connection whose [close()] has been called. *)
Theorem subscribe_after_close (tr : list Event) (c : nat) (call : Call) :
  let st := run init tr in
  let id := generateId (idCalls st) in
  let failed path :=
    mkSub id c path (mkSubscriber true [ErrorN closedError]) in
  Close ∈ tr ->
  calls st !! c = Some call ->
  0 < conn_closed st /\
  subs (step st (Subscribe c)) = subs st ++ [failed StreamPath] /\
  sent (step st (Subscribe c)) =
    sent st ++ [Start id (ccommand call) (cdata call); Stop id] /\
  (cpromise call = None ->
   subs (step st (Then c)) = subs st ++ [failed PromisePath] /\
   promise_state (failed PromisePath) = Some (inr closedError) /\
   sent (step st (Then c)) =
     sent st ++ [Start id (ccommand call) (cdata call); Stop id]).
Proof.
  intros st id failed Hin Hc.
  destruct (closed_after_close tr Hin) as [Hcl Hn]. fold st in Hcl, Hn.
  split; [exact Hn|]. simpl. rewrite Hc. unfold Wrap.subscribe. simpl.
  rewrite Hcl. simpl.
  split; [reflexivity|]. split; [reflexivity|].
  intros ->. simpl. repeat split.
Qed.


End Runs.

(** The incrementing generator hands out distinct ids as long as the
    counter is exact. *)
Lemma incrementingIdGenerator_fresh (n m : nat) :
  n < m -> (Z.of_nat m <= 2 ^ 53)%Z ->
  incrementingIdGenerator n <> incrementingIdGenerator m.
Proof.
  intros Hlt Hm. unfold incrementingIdGenerator. intros Heq.
  injection Heq as Heq. lia.
Qed.

Lemma incrementingIdGenerator_saturates :
  incrementingIdGenerator (Z.to_nat (2 ^ 53 + 1))
  = incrementingIdGenerator (Z.to_nat (2 ^ 53)).
Proof.
  unfold incrementingIdGenerator.
  rewrite !Z2Nat.id by lia.
  rewrite Z.min_r, Z.min_l by lia. reflexivity.
Qed.

(** C1, counterexample.  A call is subscribed and never cancelled; its
    completion notification arrives, and only then is the Stop message
    sent. *)
Lemma stop_sent_without_cancel :
  let tr := [Invoke (PString "f") []; Subscribe 0;
             Receive (mkResponse (IdNum 0) CompleteN)] in
  (forall k, Unsubscribe k ∉ tr) /\
  sent (run incrementingIdGenerator init (take 2 tr))
    = [Start (IdNum 0) "f" []] /\
  sent (run incrementingIdGenerator init tr)
    = [Start (IdNum 0) "f" []; Stop (IdNum 0)].
Proof.
  split; [|split; reflexivity].
  intros k Hin.
  repeat (apply elem_of_cons in Hin as [Hin|Hin]; [discriminate Hin|]).
  inversion Hin.
Qed.

Lemma lookup_sends_nothing_witness :
  let tr := [Get (PString "f"); Invoke (PString "f") [VNum 1]; Subscribe 0] in
  sent (run incrementingIdGenerator init [Get (PString "f")]) = [] /\
  Start (IdNum 0) "f" [VNum 1] ∈ sent (run incrementingIdGenerator init tr) /\
  Invoke (PString "f") [VNum 1] ∈ tr.
Proof.
  assert (Hin : Start (IdNum 0) "f" [VNum 1]
                ∈ sent (run incrementingIdGenerator init
                          [Get (PString "f"); Invoke (PString "f") [VNum 1];
                           Subscribe 0])).
  { change (Start (IdNum 0) "f" [VNum 1] ∈ [Start (IdNum 0) "f" [VNum 1]]).
    left. }
  split; [reflexivity|]. split; [exact Hin|].
  destruct (lookup_sends_nothing incrementingIdGenerator) as (_ & _ & _ & Hs).
  destruct (Hs _ _ Hin) as [_ Hc]. exact (Hc _ _ _ eq_refl).
Defined.

Lemma close_fails_outstanding_witness :
  let tr := [Invoke (PString "f") [VNum 1]; Subscribe 0] in
  let st := run incrementingIdGenerator init tr in
  subs (step incrementingIdGenerator st Close) !! 0 =
    Some (mkSub (IdNum 0) 0 StreamPath
            (mkSubscriber true [ErrorN closedError])).
Proof.
  apply (close_fails_outstanding incrementingIdGenerator
           [Invoke (PString "f") [VNum 1]; Subscribe 0] 0
           (mkSub (IdNum 0) 0 StreamPath fresh)); reflexivity.
Defined.

Lemma subscribe_after_close_witness :
  let tr := [Invoke (PString "f") []; Close] in
  let st := run incrementingIdGenerator init tr in
  Close ∈ tr /\
  sent (step incrementingIdGenerator st (Subscribe 0)) =
    [Start (IdNum 0) "f" []; Stop (IdNum 0)].
Proof.
  assert (Hin : Close ∈ [Invoke (PString "f") []; Close]).
  { right. left. }
  split; [exact Hin|].
  destruct (subscribe_after_close incrementingIdGenerator
              [Invoke (PString "f") []; Close] 0 (mkCall "f" [] None)
              Hin eq_refl) as (_ & _ & Hsent & _).
  exact Hsent.
Defined.



End WrapFacts.

(** ** exposeMigrating *)

Module MigratingFacts.
Import Migrating.

Lemma exposer_run_snoc cfg st tr e :
  run cfg st (tr ++ [e]) = step cfg (run cfg st tr) e.
Proof. unfold run. rewrite fold_left_app. reflexivity. Qed.

(** After the cancellation no event of the back end is handled. *)
Lemma cancelled_is_final cfg st tr :
  cancelled st = true -> run cfg st tr = st.
Proof.
  intros Hc. induction tr as [|e tr IH] using rev_ind; [reflexivity|].
  rewrite exposer_run_snoc, IH. destruct e as [a|]; simpl.
  - rewrite Hc. reflexivity.
  - destruct st as [m l c]. simpl in *. subst c. reflexivity.
Qed.

(** A removed event, for its part, does tear the exposer down. *)
Lemma removed_tears_down cfg st id k :
  cancelled st = false ->
  clients st !! id = Some k ->
  let st' := step cfg st (Emit (Removed id)) in
  active st' k = false /\ clients st' !! id = None.
Proof.
  intros Hc Hk. simpl. rewrite Hc. unfold on_action, active. simpl.
  rewrite Hk. split; [|apply lookup_delete_eq].
  rewrite list_lookup_alter, decide_True by reflexivity.
  destruct (receivers st !! k) as [r|]; reflexivity.
Qed.

(** C3, as amended.  Cancelling the subscription that exposeMigrating
    returned leaves the clients map and every exposer's subscription as
    they are; what stops is the handling of back-end events. *)
Theorem cancel_only_stops_listening (cfg : Config) (tr : list Event) :
  let st := run cfg init tr in
  let st' := step cfg st Cancel in
  clients st' = clients st /\
  receivers st' = receivers st /\
  (forall k, active st' k = active st k) /\
  cancelled st' = true /\
  forall tr', run cfg st' tr' = st'.
Proof.
  intros st st'. repeat split.
  intros tr'. apply cancelled_is_final. reflexivity.
Qed.

(** C3, counterexample.  One backend is added and the subscription is
    cancelled: the exposer is still in the map and still subscribed. *)
Lemma cancel_leaves_exposer_running :
  let cfg := mkConfig (TValue 7) None in
  let st := run cfg init [Emit (Added "w1" 1)] in
  let st' := step cfg st Cancel in
  clients st' !! "w1" = Some 0 /\
  active st 0 = true /\
  active st' 0 = true.
Proof. repeat split. Qed.

End MigratingFacts.

(** ** The registry *)

Module RegistryFacts.
Import Registry RxFacts.

Section WithTypes.

Context {K V : Type} `{Countable K}.

Implicit Types (st : State K V) (x : Inner K) (n : Notification (K * V)).

Lemma set_out_same st : set_out (out st) st = st.
Proof. destruct st. reflexivity. Qed.

Lemma emit_stopped n st : stopped (out st) = true -> emit n st = st.
Proof.
  intros Hs. unfold emit. rewrite (notify_stopped n _ Hs), Hs. simpl.
  apply set_out_same.
Qed.

Lemma emit_open n st :
  stopped (out st) = false ->
  emit n st =
    let st' := set_out (mkSubscriber (is_terminal n)
                          (received (out st) ++ [n])) st in
    if is_terminal n then close_all st' else st'.
Proof. intros Hs. unfold emit, notify. rewrite Hs. reflexivity. Qed.

(** *** [settles] is a preorder that every operation but [add] follows *)

Lemma settles_refl st : settles st st.
Proof. apply Forall2_same_length_lookup_2; [reflexivity|].
  intros i x y Hx Hy. rewrite Hx in Hy. injection Hy as <-. auto.
Qed.

Lemma settles_trans st1 st2 st3 :
  settles st1 st2 -> settles st2 st3 -> settles st1 st3.
Proof.
  unfold settles. intros H12 H23.
  eapply Forall2_trans; [|exact H12|exact H23].
  simpl. intros x y z (Hk1 & Ht1 & Hc1) (Hk2 & Ht2 & Hc2).
  repeat split; [congruence|congruence|auto].
Qed.

Lemma settles_same_inners st st' : inners st' = inners st -> settles st st'.
Proof. unfold settles. intros ->. apply (settles_refl st). Qed.

Lemma settles_close_inner i st : settles st (close_inner i st).
Proof.
  unfold close_inner. destruct (inners st !! i) as [x|] eqn:Hi;
    [|apply settles_refl].
  unfold settles. simpl.
  apply Forall2_same_length_lookup_2; [rewrite length_insert; reflexivity|].
  intros j a b Ha Hb. destruct (decide (i = j)) as [->|Hne].
  - rewrite list_lookup_insert_eq in Hb by (eapply lookup_lt_Some; eauto).
    injection Hb as <-. rewrite Hi in Ha. injection Ha as <-. auto.
  - rewrite list_lookup_insert_ne in Hb by exact Hne.
    rewrite Ha in Hb. injection Hb as <-. auto.
Qed.

Lemma settles_close_all st : settles st (close_all st).
Proof.
  unfold settles, close_all. simpl.
  apply Forall2_fmap_r, Forall2_same_length_lookup_2; [reflexivity|].
  intros j a b Ha Hb. rewrite Ha in Hb. injection Hb as <-. auto.
Qed.

Lemma settles_emit n st : settles st (emit n st).
Proof.
  unfold emit. destruct (negb _ && _).
  - eapply settles_trans; [|apply settles_close_all].
    apply settles_same_inners. reflexivity.
  - apply settles_same_inners. reflexivity.
Qed.

Lemma settles_checkComplete st : settles st (checkComplete st).
Proof.
  unfold checkComplete. destruct (_ && _);
    [apply settles_emit|apply settles_refl].
Qed.

Lemma settles_inner_next i v st : settles st (inner_next i v st).
Proof.
  unfold inner_next. destruct (inners st !! i) as [x|]; [|apply settles_refl].
  destruct (iclosed x); [apply settles_refl|apply settles_emit].
Qed.

Lemma settles_inner_complete i st : settles st (inner_complete i st).
Proof.
  unfold inner_complete. destruct (inner_open st i); [|apply settles_refl].
  apply (settles_trans _ (close_inner i st)); [apply settles_close_inner|].
  eapply settles_trans; [|apply settles_checkComplete].
  apply settles_same_inners. reflexivity.
Qed.

Lemma settles_inner_error i e st : settles st (inner_error i e st).
Proof.
  unfold inner_error. destruct (inner_open st i); [|apply settles_refl].
  eapply settles_trans; [apply settles_emit|apply settles_close_inner].
Qed.

Lemma settles_delete_key opts key st : settles st (delete_key opts key st).
Proof.
  unfold delete_key. destruct (_ && _).
  - eapply settles_trans; [|apply settles_emit].
    apply settles_same_inners. reflexivity.
  - eapply settles_trans; [|apply settles_checkComplete].
    destruct (observables st !! key) as [i|].
    + apply (settles_trans _ (close_inner i st));
        [apply settles_close_inner|apply settles_same_inners; reflexivity].
    + apply settles_same_inners. reflexivity.
Qed.

Lemma settles_sync i vs st :
  settles st (fold_left (fun s v => inner_next i v s) vs st).
Proof.
  revert st. induction vs as [|v vs IH]; intros st; [apply settles_refl|].
  simpl. eapply settles_trans; [apply settles_inner_next|apply IH].
Qed.

Lemma settles_keys st st' :
  settles st st' -> ikey <$> inners st' = ikey <$> inners st.
Proof.
  unfold settles. induction 1 as [|x y l l' (Hk & _) _ IH]; [reflexivity|].
  rewrite !fmap_cons, Hk, IH. reflexivity.
Qed.

Lemma settles_lookup st st' i x :
  settles st st' -> inners st !! i = Some x ->
  exists x', inners st' !! i = Some x' /\ ikey x' = ikey x /\
             ihasTeardown x' = ihasTeardown x /\
             (iclosed x = true -> iclosed x' = true).
Proof.
  intros Hs Hx. destruct (Forall2_lookup_l _ _ _ _ _ Hs Hx) as (x' & Hx' & Hp).
  eauto.
Qed.

Lemma muted_settles key st st' :
  settles st st' -> muted key st -> muted key st'.
Proof.
  unfold settles, muted. intros Hs Hm.
  induction Hs as [|x y l l' (Hk & _ & Hc) _ IH]; [constructor|].
  inversion Hm as [|? ? Hx Hl]; subst. constructor; [|apply IH, Hl].
  intros Hy. apply Hc, Hx. congruence.
Qed.

(** *** The map stays consistent with the inner subscriptions *)

Lemma finalize_lookup x (m : gmap K nat) k j :
  finalize x m !! k = Some j -> m !! k = Some j.
Proof.
  unfold finalize. destruct (iclosed x), (ihasTeardown x); auto.
  intros Hd. apply lookup_delete_Some in Hd as [_ Hd]. exact Hd.
Qed.

Lemma fold_finalize_lookup (l : list (Inner K)) (m : gmap K nat) k j :
  fold_left (fun m x => finalize x m) l m !! k = Some j -> m !! k = Some j.
Proof.
  revert m. induction l as [|x l IH]; intros m; simpl; [auto|].
  intros Hf. eapply finalize_lookup, IH, Hf.
Qed.

Lemma fold_finalize_deleted (l : list (Inner K)) (m : gmap K nat) x :
  x ∈ l -> iclosed x = false -> ihasTeardown x = true ->
  fold_left (fun m x => finalize x m) l m !! ikey x = None.
Proof.
  revert m. induction l as [|y l IH]; intros m Hin Hc Ht; [inversion Hin|].
  simpl. apply elem_of_cons in Hin as [<-|Hin]; [|apply IH; assumption].
  destruct (fold_left _ l (finalize x m) !! ikey x) as [j|] eqn:Hj;
    [|reflexivity].
  apply fold_finalize_lookup in Hj. unfold finalize in Hj.
  rewrite Hc, Ht, lookup_delete_eq in Hj. discriminate.
Qed.

Lemma indexed_close_inner i st : indexed st -> indexed (close_inner i st).
Proof.
  intros Hst k j. unfold close_inner.
  destruct (inners st !! i) as [x|] eqn:Hi; [|apply Hst].
  simpl. intros Hk.
  destruct (Hst k j (finalize_lookup _ _ _ _ Hk)) as (y & Hy & Hky & Hc & Ht).
  destruct (decide (i = j)) as [->|Hne].
  - rewrite Hi in Hy. injection Hy as <-.
    unfold finalize in Hk. rewrite Hc, Ht, Hky, lookup_delete_eq in Hk.
    discriminate.
  - exists y. rewrite list_lookup_insert_ne by exact Hne. auto.
Qed.

Lemma close_all_empties st k :
  indexed st -> observables (close_all st) !! k = None.
Proof.
  intros Hst. unfold close_all. simpl.
  destruct (fold_left _ (inners st) (observables st) !! k) as [j|] eqn:Hj;
    [|reflexivity].
  destruct (Hst k j (fold_finalize_lookup _ _ _ _ Hj))
    as (y & Hy & <- & Hc & Ht).
  rewrite (fold_finalize_deleted (inners st) (observables st) y) in Hj;
    [discriminate| |exact Hc|exact Ht].
  eapply list_elem_of_lookup_2, Hy.
Qed.

Lemma close_all_closes st :
  Forall (fun x => iclosed x = true) (inners (close_all st)).
Proof.
  unfold close_all. simpl. apply Forall_fmap, Forall_forall.
  intros x _. reflexivity.
Qed.

Lemma consistent_close_all st : indexed st -> consistent (close_all st).
Proof.
  intros Hst. split.
  - intros k j Hk. rewrite close_all_empties in Hk by exact Hst. discriminate.
  - intros _. apply close_all_closes.
Qed.

Lemma drained_more_closed st st' :
  settles st st' -> out st' = out st -> drained st -> drained st'.
Proof.
  intros Hs Ho Hd Hstop. rewrite Ho in Hstop. specialize (Hd Hstop).
  unfold settles in Hs. clear Ho Hstop.
  induction Hs as [|x y l l' (_ & _ & Hc) _ IH]; [constructor|].
  inversion Hd; subst. constructor; auto.
Qed.

Lemma out_close_inner i st : out (close_inner i st) = out st.
Proof. unfold close_inner. destruct (inners st !! i); reflexivity. Qed.

Lemma consistent_close_inner i st :
  consistent st -> consistent (close_inner i st).
Proof.
  intros [Hi Hd]. split; [apply indexed_close_inner, Hi|].
  eapply drained_more_closed;
    [apply settles_close_inner|apply out_close_inner|exact Hd].
Qed.

Lemma consistent_emit n st : consistent st -> consistent (emit n st).
Proof.
  intros [Hi Hd]. destruct (stopped (out st)) eqn:Hs.
  - rewrite emit_stopped by exact Hs. split; assumption.
  - rewrite emit_open by exact Hs. cbv zeta.
    destruct (is_terminal n) eqn:Hn.
    + apply consistent_close_all. exact Hi.
    + split; [exact Hi|]. intros Hstop. simpl in Hstop. discriminate.
Qed.

Lemma consistent_same st st' :
  observables st' = observables st -> inners st' = inners st ->
  out st' = out st -> consistent st -> consistent st'.
Proof.
  intros Ho Hi Hout [H1 H2]. split.
  - intros k i. rewrite Ho, Hi. apply H1.
  - intros Hs. rewrite Hi. apply H2. rewrite <- Hout. exact Hs.
Qed.

Lemma consistent_checkComplete st :
  consistent st -> consistent (checkComplete st).
Proof.
  intros Hst. unfold checkComplete. destruct (_ && _); [|exact Hst].
  apply consistent_emit, Hst.
Qed.

Lemma consistent_inner_next i v st :
  consistent st -> consistent (inner_next i v st).
Proof.
  intros Hst. unfold inner_next.
  destruct (inners st !! i) as [x|]; [|exact Hst].
  destruct (iclosed x); [exact Hst|apply consistent_emit, Hst].
Qed.

Lemma consistent_inner_complete i st :
  consistent st -> consistent (inner_complete i st).
Proof.
  intros Hst. unfold inner_complete. destruct (inner_open st i); [|exact Hst].
  apply consistent_checkComplete.
  eapply consistent_same; [| | |apply (consistent_close_inner i), Hst];
    reflexivity.
Qed.

Lemma consistent_inner_error i e st :
  consistent st -> consistent (inner_error i e st).
Proof.
  intros Hst. unfold inner_error. destruct (inner_open st i); [|exact Hst].
  apply consistent_close_inner, consistent_emit, Hst.
Qed.

Lemma consistent_delete_key opts key st :
  consistent st -> consistent (delete_key opts key st).
Proof.
  intros Hst. unfold delete_key. destruct (_ && _).
  - apply consistent_emit.
    eapply consistent_same; [| | |exact Hst]; reflexivity.
  - apply consistent_checkComplete.
    destruct (observables st !! key) as [i|].
    + eapply consistent_same; [| | |apply (consistent_close_inner i), Hst];
        reflexivity.
    + eapply consistent_same; [| | |exact Hst]; reflexivity.
Qed.

Lemma consistent_sync i vs st :
  consistent st ->
  consistent (fold_left (fun s v => inner_next i v s) vs st).
Proof.
  revert st. induction vs as [|v vs IH]; intros st Hst; [exact Hst|].
  simpl. apply IH, consistent_inner_next, Hst.
Qed.

Lemma settles_subscribe_source i src st :
  settles st (subscribe_source i src st).
Proof.
  unfold subscribe_source.
  destruct (sync_end src) as [[|e]|];
    [eapply settles_trans; [apply settles_sync|apply settles_inner_complete]
    |eapply settles_trans; [apply settles_sync|apply settles_inner_error]
    |apply settles_sync].
Qed.

Lemma consistent_subscribe_source i src st :
  consistent st -> consistent (subscribe_source i src st).
Proof.
  intros Hst. unfold subscribe_source.
  destruct (sync_end src) as [[|e]|];
    auto using consistent_sync, consistent_inner_complete,
      consistent_inner_error.
Qed.

(** The state in which [add] subscribes the source. *)
Lemma consistent_new_inner key st :
  stopped (out st) = false ->
  consistent st ->
  consistent (set_inners (inners st ++ [mkInner key false false])
                (set_active (active st + 1)%Z st)).
Proof.
  intros Hopen [Hi Hd]. split.
  - intros k j Hk. destruct (Hi k j Hk) as (x & Hx & Hp). exists x.
    split; [|exact Hp]. simpl. apply lookup_app_l_Some, Hx.
  - intros Hs. simpl in Hs. congruence.
Qed.

Lemma consistent_add key src st :
  stopped (out st) = false -> consistent st -> consistent (add key src st).
Proof.
  intros Hopen Hst. unfold add.
  set (i := length (inners st)).
  set (st1 := set_inners _ _).
  pose proof (consistent_new_inner key st Hopen Hst) as H1. fold st1 in H1.
  pose proof (consistent_subscribe_source i src st1 H1) as [H3 D3].
  assert (Hi1 : inners st1 !! i = Some (mkInner key false false)).
  { subst st1 i. simpl. apply list_lookup_middle. reflexivity. }
  destruct (settles_lookup _ _ _ _ (settles_subscribe_source i src st1) Hi1)
    as (x & Hx & Hkx & Htx & _).
  simpl in Hkx, Htx.
  set (st3 := subscribe_source i src st1) in *.
  unfold add_teardown. simpl. rewrite Hx.
  destruct (iclosed x) eqn:Hc.
  - split.
    + intros k j. simpl. intros Hk.
      apply lookup_delete_Some in Hk as [Hne Hk].
      rewrite lookup_insert_ne in Hk by exact Hne. apply H3, Hk.
    + exact D3.
  - split.
    + intros k j. simpl. intros Hk.
      destruct (decide (key = k)) as [->|Hne].
      * rewrite lookup_insert_eq in Hk. injection Hk as <-.
        exists (mkInner (ikey x) false true).
        rewrite list_lookup_insert_eq by (eapply lookup_lt_Some, Hx). auto.
      * rewrite lookup_insert_ne in Hk by exact Hne.
        destruct (H3 k j Hk) as (y & Hy & Hp). exists y. split; [|exact Hp].
        rewrite list_lookup_insert_ne; [exact Hy|].
        intros <-. rewrite Hx in Hy. injection Hy as <-.
        destruct Hp as (_ & _ & Ht). congruence.
    + intros Hs. simpl in Hs. specialize (D3 Hs).
      rewrite Forall_forall in D3.
      specialize (D3 x (list_elem_of_lookup_2 _ _ _ Hx)). congruence.
Qed.

Section Runs.

Variable opts : RegistryOptions.

Abbreviation step := (Registry.step (K := K) (V := V) opts).
Abbreviation run := (Registry.run (K := K) (V := V) opts).

Lemma registry_run_snoc st tr e : run st (tr ++ [e]) = step (run st tr) e.
Proof. unfold Registry.run. rewrite fold_left_app. reflexivity. Qed.

Lemma listening_open st : listening st = true -> stopped (out st) = false.
Proof.
  unfold listening. intros Hl. apply andb_true_iff in Hl as [Hl _].
  apply negb_true_iff, Hl.
Qed.

Lemma consistent_step st e : consistent st -> consistent (step st e).
Proof.
  intros Hst. destruct e as [[key src|key]| |e|i v|i|i e|]; simpl.
  - destruct (listening st) eqn:Hl; [|exact Hst].
    apply consistent_add; [apply listening_open, Hl|exact Hst].
  - destruct (listening st); [|exact Hst].
    apply consistent_delete_key, Hst.
  - destruct (listening st); [|exact Hst].
    apply consistent_checkComplete.
    eapply consistent_same; [| | |exact Hst]; reflexivity.
  - destruct (listening st); [|exact Hst]. apply consistent_emit, Hst.
  - apply consistent_inner_next, Hst.
  - apply consistent_inner_complete, Hst.
  - apply consistent_inner_error, Hst.
  - destruct (stopped (out st)); [exact Hst|].
    apply consistent_close_all. apply Hst.
Qed.

Lemma consistent_run tr : consistent (run init tr).
Proof.
  induction tr as [|e tr IH] using rev_ind.
  - split; [intros k i Hk; simpl in Hk; rewrite lookup_empty in Hk;
            discriminate|].
    intros _. constructor.
  - rewrite registry_run_snoc. apply consistent_step, IH.
Qed.

(** *** Which keys the inner subscriptions carry *)

Lemma add_teardown_keys i key st :
  ikey <$> inners (add_teardown i key st) = ikey <$> inners st.
Proof.
  unfold add_teardown. destruct (inners st !! i) as [x|] eqn:Hx; [|reflexivity].
  destruct (iclosed x); [reflexivity|]. simpl.
  rewrite list_fmap_insert. simpl. apply list_insert_id.
  rewrite list_lookup_fmap, Hx. reflexivity.
Qed.

Lemma add_keys key src st :
  ikey <$> inners (add key src st) = (ikey <$> inners st) ++ [key].
Proof.
  unfold add. rewrite add_teardown_keys. simpl.
  rewrite (settles_keys _ _ (settles_subscribe_source _ src _)). simpl.
  rewrite fmap_app. reflexivity.
Qed.

Lemma settles_step st e :
  (forall key src, e <> Act (Add key src)) -> settles st (step st e).
Proof.
  intros Hne. destruct e as [[key src|key]| |e|i v|i|i e|]; simpl.
  - exfalso. eapply Hne. reflexivity.
  - destruct (listening st); [apply settles_delete_key|apply settles_refl].
  - destruct (listening st); [|apply settles_refl].
    eapply settles_trans; [|apply settles_checkComplete].
    apply settles_same_inners. reflexivity.
  - destruct (listening st); [apply settles_emit|apply settles_refl].
  - apply settles_inner_next.
  - apply settles_inner_complete.
  - apply settles_inner_error.
  - destruct (stopped (out st)); [apply settles_refl|].
    eapply settles_trans; [|apply settles_close_all].
    apply settles_same_inners. reflexivity.
Qed.

Lemma keys_step st e k :
  k ∈ ikey <$> inners (step st e) ->
  k ∈ ikey <$> inners st \/ exists src, e = Act (Add k src).
Proof.
  intros Hin.
  assert (Hs : (forall key src, e <> Act (Add key src)) ->
               k ∈ ikey <$> inners st).
  { intros Hne. rewrite <- (settles_keys _ _ (settles_step st e Hne)).
    exact Hin. }
  destruct e as [[key src|key]| |e|i v|i|i e|];
    try (left; apply Hs; intros ? ?; discriminate).
  simpl in Hin. destruct (listening st); [|auto].
  rewrite add_keys in Hin. apply elem_of_app in Hin as [Hin|Hin]; [auto|].
  apply list_elem_of_singleton in Hin as ->. eauto.
Qed.

Lemma keys_run tr k :
  k ∈ ikey <$> inners (run init tr) -> exists src, Act (Add k src) ∈ tr.
Proof.
  induction tr as [|e tr IH] using rev_ind; intros Hin.
  - inversion Hin.
  - rewrite registry_run_snoc in Hin. apply keys_step in Hin as [Hin|[src ->]].
    + destruct (IH Hin) as [src Hs]. exists src.
      apply elem_of_app. left. exact Hs.
    + exists src. apply elem_of_app. right. left.
Qed.

(** A key that no action has added is not in the map. *)
Lemma never_added_absent tr key :
  (forall src, Act (Add key src) ∉ tr) ->
  observables (run init tr) !! key = None.
Proof.
  intros Hnot. destruct (observables (run init tr) !! key) as [i|] eqn:Hk;
    [|reflexivity].
  destruct (consistent_run tr) as [Hi _].
  destruct (Hi key i Hk) as (x & Hx & Hkx & _).
  destruct (keys_run tr key) as [src Hs].
  - apply list_elem_of_fmap. exists x. split; [auto|].
    eapply list_elem_of_lookup_2, Hx.
  - exfalso. eapply Hnot, Hs.
Qed.

(** C4.  A [delete] whose key is in the map finds an open subscription
    there, unsubscribes it and, through that subscription's teardown,
    takes the key out of the map; the merged stream is handed nothing. *)
Theorem delete_cancels_and_forgets (tr : list (Event K V)) (key : K) (i : nat) :
  let st := run init tr in
  let st' := step st (Act (Delete key)) in
  isComplete st = false ->
  observables st !! key = Some i ->
  inner_open st i = true /\
  inner_open st' i = false /\
  observables st' !! key = None /\
  out st' = out st.
Proof.
  intros st st' Hic Hk.
  destruct (consistent_run tr) as [Hi Hd]. fold st in Hi, Hd.
  destruct (Hi key i Hk) as (x & Hx & Hkx & Hc & Ht).
  assert (Hopen : stopped (out st) = false).
  { destruct (stopped (out st)) eqn:Hs; [|reflexivity].
    specialize (Hd Hs). rewrite Forall_forall in Hd.
    specialize (Hd x (list_elem_of_lookup_2 _ _ _ Hx)). congruence. }
  assert (Hl : listening st = true).
  { unfold listening. rewrite Hopen, Hic. reflexivity. }
  assert (Hst' : st' = set_active (active (close_inner i st) + 1 - 1)%Z
                         (close_inner i st)).
  { subst st'. simpl. rewrite Hl. unfold delete_key. rewrite Hk.
    rewrite andb_false_r. unfold checkComplete.
    replace (isComplete (set_active _ (close_inner i st))) with false;
      [reflexivity|].
    unfold close_inner. rewrite Hx. simpl. symmetry. exact Hic. }
  rewrite Hst'. unfold inner_open, close_inner. rewrite Hx. simpl.
  rewrite Hc. split; [reflexivity|].
  rewrite list_lookup_insert_eq by (eapply lookup_lt_Some, Hx). simpl.
  split; [reflexivity|]. split; [|reflexivity].
  unfold finalize. rewrite Hc, Ht, Hkx. apply lookup_delete_eq.
Qed.

(** C5.  A [delete] whose key no action has added: unless
    [allowIncorrectIds] is set, the merged stream fails with the error of
    the registry; when it is set, nothing changes at all. *)
Theorem delete_unknown_key (tr : list (Event K V)) (key : K) :
  let st := run init tr in
  let st' := step st (Act (Delete key)) in
  (forall src, Act (Add key src) ∉ tr) ->
  listening st = true ->
  if truthy (allowIncorrectIds opts)
  then st' = st
  else out st' =
       mkSubscriber true (received (out st) ++ [ErrorN removeError]).
Proof.
  intros st st' Hnot Hl.
  pose proof (never_added_absent tr key Hnot) as Hk. fold st in Hk.
  subst st'. simpl. rewrite Hl. unfold delete_key. rewrite Hk.
  destruct (truthy (allowIncorrectIds opts)); simpl.
  - unfold checkComplete. simpl.
    apply andb_true_iff in Hl as [_ Hic]. apply negb_true_iff in Hic.
    rewrite Hic. simpl. destruct st as [m l a c o]. simpl.
    unfold set_active. simpl. f_equal. lia.
  - rewrite emit_open by (apply listening_open, Hl). reflexivity.
Qed.

(** *** What the merged stream emits under a key *)

Lemma emitted_same_out key st st' :
  out st' = out st -> emitted_for key st' = emitted_for key st.
Proof. unfold emitted_for. intros ->. reflexivity. Qed.

Lemma out_close_all st : out (close_all st) = out st.
Proof. reflexivity. Qed.

Lemma emitted_emit key n st :
  (forall v, n <> NextN (key, v)) ->
  emitted_for key (emit n st) = emitted_for key st.
Proof.
  intros Hn. destruct (stopped (out st)) eqn:Hs.
  - rewrite emit_stopped by exact Hs. reflexivity.
  - rewrite emit_open by exact Hs. cbv zeta.
    assert (Hq : emitted_for key
                   (set_out (mkSubscriber (is_terminal n)
                               (received (out st) ++ [n])) st)
                 = emitted_for key st).
    { unfold emitted_for. simpl. rewrite omap_app. simpl.
      destruct n as [[k v]| |]; try apply app_nil_r.
      destruct (decide (k = key)) as [->|]; [|apply app_nil_r].
      exfalso. eapply Hn. reflexivity. }
    destruct (is_terminal n); [|exact Hq].
    rewrite <- Hq. apply emitted_same_out, out_close_all.
Qed.

Lemma emitted_checkComplete key st :
  emitted_for key (checkComplete st) = emitted_for key st.
Proof.
  unfold checkComplete. destruct (_ && _); [|reflexivity].
  apply emitted_emit. intros v. discriminate.
Qed.

Lemma emitted_inner_next key i v st :
  muted key st -> emitted_for key (inner_next i v st) = emitted_for key st.
Proof.
  intros Hm. unfold inner_next.
  destruct (inners st !! i) as [x|] eqn:Hx; [|reflexivity].
  destruct (iclosed x) eqn:Hc; [reflexivity|].
  apply emitted_emit. intros v' Heq. injection Heq as Hk _.
  unfold muted in Hm. rewrite Forall_forall in Hm.
  specialize (Hm x (list_elem_of_lookup_2 _ _ _ Hx) Hk). congruence.
Qed.

Lemma emitted_inner_complete key i st :
  emitted_for key (inner_complete i st) = emitted_for key st.
Proof.
  unfold inner_complete. destruct (inner_open st i); [|reflexivity].
  rewrite emitted_checkComplete.
  apply emitted_same_out. simpl. apply out_close_inner.
Qed.

Lemma emitted_inner_error key i e st :
  emitted_for key (inner_error i e st) = emitted_for key st.
Proof.
  unfold inner_error. destruct (inner_open st i); [|reflexivity].
  rewrite (emitted_same_out key _ _ (out_close_inner i _)).
  apply emitted_emit. intros v. discriminate.
Qed.

Lemma emitted_delete_key key opts' key' st :
  emitted_for key (delete_key opts' key' st) = emitted_for key st.
Proof.
  unfold delete_key. destruct (_ && _).
  - rewrite emitted_emit by (intros v; discriminate). reflexivity.
  - rewrite emitted_checkComplete. apply emitted_same_out. simpl.
    destruct (observables st !! key'); [apply out_close_inner|reflexivity].
Qed.

Lemma emitted_sync key i vs st :
  muted key st ->
  emitted_for key (fold_left (fun s v => inner_next i v s) vs st)
  = emitted_for key st.
Proof.
  revert st. induction vs as [|v vs IH]; intros st Hm; [reflexivity|].
  simpl. rewrite IH.
  - apply emitted_inner_next, Hm.
  - eapply muted_settles; [apply settles_inner_next|exact Hm].
Qed.

Lemma emitted_subscribe_source key i src st :
  muted key st ->
  emitted_for key (subscribe_source i src st) = emitted_for key st.
Proof.
  intros Hm. unfold subscribe_source.
  destruct (sync_end src) as [[|e]|];
    rewrite ?emitted_inner_complete, ?emitted_inner_error;
    apply emitted_sync, Hm.
Qed.

Lemma out_add_teardown i key st : out (add_teardown i key st) = out st.
Proof.
  unfold add_teardown. destruct (inners st !! i) as [x|]; [|reflexivity].
  destruct (iclosed x); reflexivity.
Qed.

Lemma muted_add_teardown key i key' st :
  muted key st -> muted key (add_teardown i key' st).
Proof.
  intros Hm. unfold add_teardown.
  destruct (inners st !! i) as [x|] eqn:Hx; [|exact Hm].
  destruct (iclosed x) eqn:Hc; [exact Hm|].
  unfold muted. simpl. apply Forall_insert; [exact Hm|]. simpl.
  intros Hk. unfold muted in Hm. rewrite Forall_forall in Hm.
  specialize (Hm x (list_elem_of_lookup_2 _ _ _ Hx) Hk). congruence.
Qed.

Lemma muted_add key key' src st :
  key' <> key -> muted key st ->
  muted key (add key' src st) /\
  emitted_for key (add key' src st) = emitted_for key st.
Proof.
  intros Hne Hm. unfold add.
  set (st1 := set_inners _ _).
  assert (H1 : muted key st1).
  { unfold muted. subst st1. simpl. apply Forall_app. split; [exact Hm|].
    constructor; [|constructor]. simpl. intros Hk. contradiction. }
  split.
  - apply muted_add_teardown.
    apply (muted_settles key st1); [|exact H1].
    eapply settles_trans; [apply settles_subscribe_source|].
    apply settles_same_inners. reflexivity.
  - rewrite (emitted_same_out key _ _ (out_add_teardown _ _ _)).
    transitivity (emitted_for key
                    (subscribe_source (length (inners st)) src st1));
      [apply emitted_same_out; reflexivity|].
    rewrite emitted_subscribe_source by exact H1.
    apply emitted_same_out. reflexivity.
Qed.

Lemma muted_step key st e :
  (forall src, e <> Act (Add key src)) ->
  muted key st ->
  muted key (step st e) /\ emitted_for key (step st e) = emitted_for key st.
Proof.
  intros Hne Hm.
  destruct e as [[key' src|key']| |e|i v|i|i e|];
    try (split; [eapply muted_settles;
                   [apply settles_step; intros ? ?; discriminate|exact Hm]|]).
  - simpl. destruct (listening st); [|auto]. apply muted_add; [|exact Hm].
    intros ->. eapply Hne. reflexivity.
  - simpl. destruct (listening st); [|reflexivity]. apply emitted_delete_key.
  - simpl. destruct (listening st); [|reflexivity].
    rewrite emitted_checkComplete. reflexivity.
  - simpl. destruct (listening st); [|reflexivity].
    apply emitted_emit. intros v. discriminate.
  - apply emitted_inner_next, Hm.
  - apply emitted_inner_complete.
  - apply emitted_inner_error.
  - simpl. destruct (stopped (out st)); reflexivity.
Qed.

(** Once no open subscription tags with [key], nothing is emitted under
    [key] until [key] is added again. *)
Lemma muted_run key st tr :
  (forall src, Act (Add key src) ∉ tr) ->
  muted key st ->
  muted key (run st tr) /\ emitted_for key (run st tr) = emitted_for key st.
Proof.
  induction tr as [|e tr IH] using rev_ind; intros Hnot Hm; [auto|].
  rewrite registry_run_snoc.
  destruct IH as [Hm' He'].
  { intros src Hin. eapply Hnot, elem_of_app. left. exact Hin. }
  { exact Hm. }
  destruct (muted_step key (run st tr) e) as [Hm'' He'']; [|exact Hm'|].
  - intros src ->. eapply Hnot, elem_of_app. right. left.
  - split; [exact Hm''|congruence].
Qed.

(** A merged stream that has stopped stays as it is. *)
Lemma stopped_step_out st e :
  stopped (out st) = true -> out (step st e) = out st.
Proof.
  intros Hs.
  assert (Hl : listening st = false) by (unfold listening; rewrite Hs; auto).
  assert (Hcc : forall st0, stopped (out st0) = true ->
                  out (checkComplete st0) = out st0).
  { intros st0 Hs0. unfold checkComplete.
    destruct (isComplete st0 && (active st0 =? 0)%Z); [|reflexivity].
    rewrite emit_stopped by exact Hs0. reflexivity. }
  destruct e as [a| |e|i v|i|i e|]; simpl; try rewrite Hl; try reflexivity.
  - unfold inner_next. destruct (inners st !! i) as [x|]; [|reflexivity].
    destruct (iclosed x); [reflexivity|].
    rewrite emit_stopped by exact Hs. reflexivity.
  - unfold inner_complete. destruct (inner_open st i); [|reflexivity].
    rewrite Hcc; [apply out_close_inner|].
    simpl. rewrite out_close_inner. exact Hs.
  - unfold inner_error. destruct (inner_open st i); [|reflexivity].
    rewrite out_close_inner, emit_stopped by exact Hs. reflexivity.
  - rewrite Hs. reflexivity.
Qed.

Lemma stopped_run_out st tr :
  stopped (out st) = true -> out (run st tr) = out st.
Proof.
  induction tr as [|e tr IH] using rev_ind; intros Hs; [reflexivity|].
  rewrite registry_run_snoc, stopped_step_out; rewrite IH by exact Hs;
    [reflexivity|exact Hs].
Qed.

End Runs.

End WithTypes.

Lemma add_then_delete_cases (n : nat) :
  add_then_delete n = add_then_delete (Nat.min n 3).
Proof.
  destruct n as [|[|[|n]]]; try reflexivity.
  unfold add_then_delete, one_two_three. simpl.
  rewrite !take_nil, !drop_nil. reflexivity.
Qed.

Lemma add_then_delete_state (opts : RegistryOptions) (n : nat) :
  let st := run opts init (add_then_delete n) in
  out st = mkSubscriber false
             [NextN ("k1", 1%Z); NextN ("k1", 2%Z); NextN ("k1", 3%Z)] /\
  inners st = [mkInner "k1" true true] /\
  observables st !! "k1" = None.
Proof.
  rewrite add_then_delete_cases.
  assert (Hm : Nat.min n 3 <= 3) by lia.
  revert Hm. generalize (Nat.min n 3). intros m Hm.
  destruct opts as [[[|]|]];
    destruct m as [|[|[|[|m]]]]; try lia; repeat split.
Qed.

Lemma add_complete_delete_cases (n : nat) (sync : bool) :
  add_complete_delete n sync = add_complete_delete (Nat.min n 3) sync.
Proof.
  destruct n as [|[|[|n]]]; try reflexivity.
  unfold add_complete_delete, one_two_three_done, completes_within. simpl.
  rewrite !take_nil, !drop_nil. reflexivity.
Qed.

Lemma add_complete_delete_state (opts : RegistryOptions) (n : nat)
  (sync : bool) :
  let st := run opts init (add_complete_delete n sync) in
  observables st !! "k1" = None /\
  Forall (fun i => iclosed i = true) (inners st) /\
  out st = mkSubscriber (negb (truthy (allowIncorrectIds opts)))
             ([NextN ("k1", 1%Z); NextN ("k1", 2%Z); NextN ("k1", 3%Z)]
              ++ if truthy (allowIncorrectIds opts) then []
                 else [ErrorN removeError]).
Proof.
  rewrite add_complete_delete_cases.
  assert (Hm : Nat.min n 3 <= 3) by lia.
  revert Hm. generalize (Nat.min n 3). intros m Hm.
  destruct opts as [[[|]|]]; destruct sync;
    destruct m as [|[|[|[|m]]]]; try lia;
    (split; [reflexivity|]); (split; [|reflexivity]);
    repeat constructor.
Qed.

(** What the registry does with a source that is still open when its
    key is deleted: three pairs, and silence under [k1] afterwards. *)
Lemma open_source_emits_three (opts : RegistryOptions) (n : nat)
  (rest : list (Event string Z)) :
  let st := run opts init (add_then_delete n) in
  (forall src, Act (Add "k1" src) ∉ rest) ->
  out st = mkSubscriber false
             [NextN ("k1", 1%Z); NextN ("k1", 2%Z); NextN ("k1", 3%Z)] /\
  observables st !! "k1" = None /\
  emitted_for "k1" (run opts st rest) = [1; 2; 3]%Z.
Proof.
  intros st Hrest.
  destruct (add_then_delete_state opts n) as (Hout & Hin & Hk).
  fold st in Hout, Hin, Hk.
  split; [exact Hout|]. split; [exact Hk|].
  destruct (muted_run opts "k1" st rest Hrest) as [_ He].
  - unfold muted. rewrite Hin. constructor; [|constructor]. reflexivity.
  - rewrite He. unfold emitted_for. rewrite Hout. reflexivity.
Qed.

(** C6, as amended.  [k1] is added with a source that emits 1, 2, 3 and
    is then deleted.  If the source has not completed by then, or the
    registry is lenient, the merged stream has been handed the three
    pairs in the order of the source and nothing else, it has not
    ended, and whatever happens next, short of adding [k1] again,
    nothing more is emitted under [k1].  If the source has completed
    by then and the registry is strict, the three pairs are followed by
    the registry's error for a missing entry, which ends the merged
    stream. *)
Theorem add_delete_emits_three_pairs (opts : RegistryOptions) (n : nat)
  (sync : bool) (rest : list (Event string Z)) :
  let pairs := [NextN ("k1", 1%Z); NextN ("k1", 2%Z); NextN ("k1", 3%Z)] in
  let st := run opts init (add_then_delete n) in
  let st' := run opts init (add_complete_delete n sync) in
  (forall src, Act (Add "k1" src) ∉ rest) ->
  (out st = mkSubscriber false pairs /\
   observables st !! "k1" = None /\
   emitted_for "k1" (run opts st rest) = [1; 2; 3]%Z) /\
  (truthy (allowIncorrectIds opts) = true ->
   out st' = mkSubscriber false pairs /\
   observables st' !! "k1" = None /\
   emitted_for "k1" (run opts st' rest) = [1; 2; 3]%Z) /\
  (truthy (allowIncorrectIds opts) = false ->
   out st' = mkSubscriber true (pairs ++ [ErrorN removeError]) /\
   forall rest', out (run opts st' rest') = out st').
Proof.
  intros pairs st st' Hrest.
  split; [exact (open_source_emits_three opts n rest Hrest)|].
  destruct (add_complete_delete_state opts n sync) as (Hk & Hin & Hout).
  fold st' in Hk, Hin, Hout.
  split; intros Ht; rewrite Ht in Hout; simpl in Hout.
  - split; [exact Hout|].
    split; [exact Hk|].
    destruct (muted_run opts "k1" st' rest Hrest) as [_ He].
    + unfold muted. eapply Forall_impl; [exact Hin|].
      intros i Hi _. exact Hi.
    + rewrite He. unfold emitted_for. rewrite Hout. reflexivity.
  - split; [exact Hout|].
    intros rest'. apply stopped_run_out. rewrite Hout. reflexivity.
Qed.

Lemma add_delete_emits_three_pairs_witness :
  let strict := mkOptions None in
  let lenient := mkOptions (Some true) in
  let rest := [SourceNext 0 4%Z; SourceComplete 0; Act (Delete "k1")] in
  (forall src, Act (Add "k1" src) ∉ rest) /\
  emitted_for "k1" (run strict (run strict init (add_then_delete 3)) rest)
  = [1; 2; 3]%Z /\
  emitted_for "k1"
    (run lenient (run lenient init (add_complete_delete 3 true)) rest)
  = [1; 2; 3]%Z /\
  received (out (run strict init (add_complete_delete 3 true)))
  = [NextN ("k1", 1%Z); NextN ("k1", 2%Z); NextN ("k1", 3%Z);
     ErrorN removeError].
Proof.
  assert (Hrest : forall src : Source Z,
             Act (Add "k1" src)
             ∉ [SourceNext 0 4%Z; SourceComplete 0; Act (Delete "k1")]).
  { intros src Hin.
    repeat (apply elem_of_cons in Hin as [Hin|Hin]; [discriminate Hin|]).
    inversion Hin. }
  split; [exact Hrest|].
  destruct (add_delete_emits_three_pairs (mkOptions None) 3 true _ Hrest)
    as ((_ & _ & He) & _ & Hs).
  destruct (add_delete_emits_three_pairs (mkOptions (Some true)) 3 true _
              Hrest) as (_ & Hl & _).
  split; [exact He|].
  split; [exact (proj2 (proj2 (Hl eq_refl)))|].
  exact (f_equal received (proj1 (Hs eq_refl))).
Defined.

(** The source [of(1, 2, 3)] has completed by the time [k1] is deleted:
    a registry with default options then fails the merged stream. *)
Lemma completed_source_delete_fails :
  out (run (mkOptions None) init
         [Act (Add "k1" (mkSource [1; 2; 3]%Z (Some Completes)));
          Act (Delete "k1")])
  = mkSubscriber true
      [NextN ("k1", 1%Z); NextN ("k1", 2%Z); NextN ("k1", 3%Z);
       ErrorN removeError].
Proof. reflexivity. Qed.

Lemma delete_cancels_and_forgets_witness :
  let strict := mkOptions None in
  let st := run strict init [Act (Add "k1" (mkSource [1%Z] None))] in
  observables st !! "k1" = Some 0 /\
  inner_open (step strict st (Act (Delete "k1"))) 0 = false /\
  observables (step strict st (Act (Delete "k1"))) !! "k1" = None.
Proof.
  assert (Hin : observables
                  (run (mkOptions None) init
                     [Act (Add "k1" (mkSource [1%Z] None))]) !! "k1"
                = Some 0) by reflexivity.
  split; [exact Hin|].
  destruct (delete_cancels_and_forgets (mkOptions None)
              [Act (Add "k1" (mkSource [1%Z] None))] "k1" 0 eq_refl Hin)
    as (_ & Hc & Hk & _).
  split; [exact Hc|exact Hk].
Defined.

Lemma delete_unknown_key_witness :
  let st : State string Z := init in
  out (step (mkOptions None) st (Act (Delete "k1")))
    = mkSubscriber true [ErrorN removeError] /\
  step (mkOptions (Some true)) st (Act (Delete "k1")) = st.
Proof.
  assert (Hnot : forall src : Source Z, Act (Add "k1" src) ∉ []).
  { intros src Hin. inversion Hin. }
  split.
  - exact (delete_unknown_key (mkOptions None) [] "k1" Hnot eq_refl).
  - exact (delete_unknown_key (mkOptions (Some true)) [] "k1" Hnot eq_refl).
Defined.

End RegistryFacts.

(** ** The lock observable *)

Module WebLockFacts.
Import WebLock RxFacts.

Lemma lock_run_snoc st tr e : run st (tr ++ [e]) = step (run st tr) e.
Proof. unfold run. rewrite fold_left_app. reflexivity. Qed.

Ltac crush_lock :=
  unfold fresh in *;
  repeat match goal with
         | H : _ /\ _ |- _ => destruct H
         | H : _ \/ _ |- _ => destruct H
         | H : False |- _ => destruct H
         | H : mkSubscriber _ _ = mkSubscriber _ _ |- _ =>
             injection H as ? ?
         end;
  simpl in *; subst; simpl in *;
  try discriminate; repeat split; auto.

Lemma coherent_step st e : coherent st -> coherent (step st e).
Proof.
  unfold coherent. destruct st as [r a l g n u [stp rc]]. simpl.
  intros Hst.
  destruct r, l; try (exfalso; exact Hst);
    destruct e as [| |e'| |]; simpl; try exact Hst;
    crush_lock; destruct stp; crush_lock.
Qed.

Lemma coherent_run tr : coherent (run init tr).
Proof.
  induction tr as [|e tr IH] using rev_ind.
  - repeat split.
  - rewrite lock_run_snoc. apply coherent_step, IH.
Qed.

Lemma withdrawn_step st e : withdrawn st -> withdrawn (step st e).
Proof.
  destruct st as [r a l g n u b]. intros [Hr Hs]. simpl in *. subst r b.
  destruct e; simpl; try (split; reflexivity).
  unfold settle. simpl. destruct l; try (split; reflexivity).
  destruct g; split; reflexivity.
Qed.

(** A request that was withdrawn stays withdrawn. *)
Lemma withdrawn_run st tr : withdrawn st -> withdrawn (run st tr).
Proof.
  intros Hst. induction tr as [|e tr IH] using rev_ind; [exact Hst|].
  rewrite lock_run_snoc. apply withdrawn_step, IH.
Qed.

(** C8.  In every state the lock observable can reach, the subscriber
    has been handed nothing, or one value and then the lock was acquired,
    or the error of a refused request; it is never completed.  While the
    request is pending: once it is granted the subscriber is handed the
    value; once it is refused the subscriber is handed the error; and a
    cancellation aborts the signal, after which the request stays
    withdrawn, so that it is never granted, and the subscriber is handed
    nothing.  While the lock is held, a cancellation has the release
    function called, and the lock is released. *)
Theorem lock_observable (tr : list Event) :
  let st := run init tr in
  (received (subscriber st) = [] \/
   (received (subscriber st) = [NextN tt] /\ lock st = Fulfilled) \/
   exists e, received (subscriber st) = [ErrorN e] /\ request st = Rejected e)
  /\
  match request st with
  | Pending =>
      subscriber (run st [Granted; Settle]) = mkSubscriber false [NextN tt] /\
      request (run st [Granted; Settle]) = Held /\
      (forall e,
          subscriber (run st [Refused e; Settle])
          = mkSubscriber true [ErrorN e]) /\
      aborted (step st Unsubscribe) = true /\
      forall tr',
        request (run (step st Unsubscribe) tr') = Aborted /\
        subscriber (run (step st Unsubscribe) tr') = mkSubscriber true []
  | Held =>
      request (run st [Unsubscribe; Settle]) = Released /\
      releases (run st [Unsubscribe; Settle]) = S (releases st)
  | _ => True
  end.
Proof.
  intros st. pose proof (coherent_run tr) as Hc. fold st in Hc.
  unfold coherent in Hc. destruct st as [r a l g n u [stp rc]]. simpl in *.
  split.
  - destruct r, l; crush_lock; eauto.
  - destruct r, l; try exact I; try (exfalso; exact Hc).
    + destruct Hc as (-> & Hs & ->). injection Hs as -> ->.
      repeat split; apply withdrawn_run; split; reflexivity.
    + destruct Hc as (-> & ->). destruct stp; split; reflexivity.
    + destruct Hc as (-> & Hs). injection Hs as -> ->. split; reflexivity.
Qed.

Lemma lock_observable_witness :
  subscriber (run (run init [Subscribe]) [Granted; Settle])
    = mkSubscriber false [NextN tt] /\
  (forall tr',
      request (run (step (run init [Subscribe]) Unsubscribe) tr') = Aborted) /\
  request (run (run init [Subscribe; Granted; Settle]) [Unsubscribe; Settle])
    = Released.
Proof.
  pose proof (lock_observable [Subscribe]) as [_ Hp].
  pose proof (lock_observable [Subscribe; Granted; Settle]) as [_ Hh].
  simpl in Hp, Hh.
  destruct Hp as (Hg & _ & _ & _ & Ha). destruct Hh as (Hr & _).
  split; [exact Hg|]. split; [|exact Hr].
  intros tr'. apply (Ha tr').
Defined.

(** Both situations of [lock_observable] do arise. *)
Lemma pending_and_held_reachable :
  request (run init [Subscribe]) = Pending /\
  request (run init [Subscribe; Granted]) = Held /\
  run init [Subscribe; Granted; Settle; Unsubscribe]
    = mkState Released true Fulfilled false 1 []
        (mkSubscriber true [NextN tt]) /\
  run init [Subscribe; Granted; Unsubscribe; Settle]
    = mkState Released true Fulfilled false 1 [] (mkSubscriber true []) /\
  run init [Subscribe; Unsubscribe; Granted; Settle]
    = mkState Aborted true (Failed AbortError) false 0 [AbortError]
        (mkSubscriber true []).
Proof. repeat split. Qed.

End WebLockFacts.

(** ** The Remote proxy: ids, order of messages, delivery *)

Module WrapMore.
Import Wrap RxFacts WrapFacts.

Lemma with_subscriber_same s : with_subscriber s (subscriber s) = s.
Proof. destruct s. reflexivity. Qed.

Lemma unsubscribe_stopped {A} (b : Subscriber A) :
  stopped b = true -> unsubscribe b = b.
Proof. destruct b as [st rc]. simpl. intros ->. reflexivity. Qed.

Lemma with_subscriber_same_closed s :
  is_open s = false ->
  with_subscriber s (unsubscribe (subscriber s)) = s.
Proof.
  intros Hs. rewrite unsubscribe_stopped; [apply with_subscriber_same|].
  unfold is_open in Hs. apply negb_false_iff, Hs.
Qed.

Lemma settle_closed s b :
  is_open s = false -> b = subscriber s -> settle s b = (s, []).
Proof.
  intros Hs ->. unfold settle. rewrite Hs, with_subscriber_same. reflexivity.
Qed.

(** A subscription that has been torn down takes no notification. *)
Lemma deliver_closed n s : is_open s = false -> deliver n s = (s, []).
Proof.
  intros Hs. assert (Hst : stopped (subscriber s) = true).
  { unfold is_open in Hs. apply negb_false_iff, Hs. }
  unfold deliver. rewrite (notify_stopped n _ Hst).
  destruct (spath s), n; apply settle_closed; auto.
  rewrite unsubscribe_stopped; auto.
Qed.

Lemma on_response_closed r s : is_open s = false -> on_response r s = (s, []).
Proof.
  intros Hs. unfold on_response. case_decide; [|reflexivity].
  apply deliver_closed, Hs.
Qed.

Lemma sweep_same f l :
  (forall s, s ∈ l -> f s = (s, [])) -> sweep f l = (l, []).
Proof.
  induction l as [|s l IH]; intros Hf; [reflexivity|].
  simpl. rewrite (Hf s) by left. rewrite IH; [reflexivity|].
  intros x Hx. apply Hf. right. exact Hx.
Qed.

Lemma sweep_length f l : length (sweep f l).1 = length l.
Proof. rewrite sweep_fst. apply length_fmap. Qed.

Lemma settle_sid s b : sid (settle s b).1 = sid s.
Proof. reflexivity. Qed.

Lemma deliver_sid n s : sid (deliver n s).1 = sid s.
Proof. unfold deliver. destruct (spath s), n; reflexivity. Qed.

Lemma on_response_sid r s : sid (on_response r s).1 = sid s.
Proof.
  unfold on_response. case_decide; [apply deliver_sid|reflexivity].
Qed.

Lemma sweep_sids f l :
  (forall s, sid (f s).1 = sid s) -> sid <$> (sweep f l).1 = sid <$> l.
Proof.
  intros Hf. rewrite sweep_fst, <- list_fmap_compose.
  apply list_fmap_ext. intros i s _. apply Hf.
Qed.

Lemma settle_stops_own s b r : r ∈ (settle s b).2 -> r = Stop (sid s).
Proof.
  unfold settle, teardown. simpl.
  destruct (is_open s && stopped b); intros Hr.
  - apply list_elem_of_singleton in Hr. exact Hr.
  - inversion Hr.
Qed.

Lemma deliver_stops_own n s r : r ∈ (deliver n s).2 -> r = Stop (sid s).
Proof. unfold deliver. destruct (spath s), n; apply settle_stops_own. Qed.

Lemma on_response_stops_own x s r :
  r ∈ (on_response x s).2 -> r = Stop (sid s).
Proof.
  unfold on_response. case_decide; [apply deliver_stops_own|].
  intros Hr. inversion Hr.
Qed.

(** What [close()] sends: the teardown of every subscription that is
    still open, in the order of subscription. *)
Lemma sweep_close_out l :
  (sweep (deliver (ErrorN closedError)) l).2
  = (fun s => Stop (sid s)) <$> filter (fun s => is_open s = true) l.
Proof.
  induction l as [|s l IH]; [reflexivity|].
  simpl. rewrite filter_cons.
  destruct (sweep (deliver (ErrorN closedError)) l) as [l' o]. simpl in IH.
  subst o. destruct (is_open s) eqn:Hs.
  - rewrite decide_True by reflexivity.
    assert (Hd : (deliver (ErrorN closedError) s).2 = [Stop (sid s)]).
    { unfold deliver, settle, teardown. rewrite Hs.
      assert (Hst : stopped (notify (ErrorN closedError) (subscriber s)) = true)
        by (apply notify_terminal_stops; reflexivity).
      destruct (spath s); simpl; rewrite Hst; reflexivity. }
    destruct (deliver (ErrorN closedError) s) as [s' o]. simpl in *.
    subst o. reflexivity.
  - rewrite decide_False by discriminate.
    rewrite (deliver_closed _ s Hs). reflexivity.
Qed.

Section Runs.

Variable generateId : nat -> Id.

Abbreviation step := (Wrap.step generateId).
Abbreviation run := (Wrap.run generateId).

(** *** Ids are drawn one per subscription, in order *)

Lemma subscribe_sids path c call st :
  sid <$> subs (Wrap.subscribe generateId path c call st)
  = (sid <$> subs st) ++ [generateId (idCalls st)].
Proof. simpl. rewrite fmap_app. reflexivity. Qed.

Lemma sids_step st e :
  (sid <$> subs (step st e) = sid <$> subs st /\
   idCalls (step st e) = idCalls st) \/
  (sid <$> subs (step st e) = (sid <$> subs st) ++ [generateId (idCalls st)] /\
   idCalls (step st e) = S (idCalls st)).
Proof.
  destruct e as [p|p d|c|c|k|r|]; simpl.
  - auto.
  - destruct (proxy_get p); auto.
  - destruct (calls st !! c); [right|left]; auto using subscribe_sids.
  - destruct (calls st !! c) as [call|]; [|auto].
    destruct (cpromise call); [auto|]. right. simpl.
    split; [|reflexivity]. rewrite fmap_app. reflexivity.
  - destruct (subs st !! k) as [s|] eqn:Hk; [|auto].
    destruct (spath s); [|auto]. left. simpl. split; [|reflexivity].
    rewrite list_fmap_insert. simpl. apply list_insert_id.
    rewrite list_lookup_fmap, Hk. reflexivity.
  - left. pose proof (sweep_sids (on_response r) (subs st)
                        (on_response_sid r)) as Hs.
    destruct (sweep (on_response r) (subs st)). simpl in *. auto.
  - left. destruct (closed st); [auto|].
    pose proof (sweep_sids (deliver (ErrorN closedError)) (subs st)
                  (deliver_sid _)) as Hs.
    destruct (sweep (deliver (ErrorN closedError)) (subs st)). simpl in *. auto.
Qed.

(** X1.  [generateId] is called once for each subscription and at no
    other time: the k-th subscription of a Remote carries the k-th id
    the generator handed out. *)
Theorem ids_follow_subscriptions (tr : list Event) :
  let st := run init tr in
  idCalls st = length (subs st) /\
  sid <$> subs st = generateId <$> seq 0 (length (subs st)).
Proof.
  induction tr as [|e tr IH] using rev_ind; [split; reflexivity|].
  rewrite wrap_run_snoc. cbv zeta in *. destruct IH as [Hn Hs].
  set (st := Wrap.run generateId init tr) in *.
  assert (Hl : forall st' : State,
             length (subs st') = length (sid <$> subs st'))
    by (intros; rewrite length_fmap; reflexivity).
  destruct (sids_step st e) as [[H1 H2]|[H1 H2]].
  - rewrite H2, (Hl (step st e)), H1, <- Hl. auto.
  - rewrite H2, (Hl (step st e)), H1, length_app, <- Hl. simpl.
    rewrite Nat.add_1_r. split; [congruence|].
    rewrite seq_S, fmap_app, <- Hs, Hn. reflexivity.
Qed.

(** *** A Stop message never comes before its Start message *)

Lemma all_started_more st st' out :
  all_started st ->
  sent st' = sent st ++ out ->
  sid <$> subs st' = sid <$> subs st ->
  all_started st'.
Proof.
  intros Hst Hsent Hsid s Hs.
  assert (Hin : sid s ∈ sid <$> subs st).
  { rewrite <- Hsid. apply list_elem_of_fmap. eauto. }
  apply list_elem_of_fmap in Hin as (s0 & Heq & Hs0).
  destruct (Hst s0 Hs0) as (m & c & d & Hm). exists m, c, d.
  rewrite Hsent, Heq. apply lookup_app_l_Some, Hm.
Qed.

Lemma stop_follows_start_stops st out :
  all_started st ->
  stop_follows_start (sent st) ->
  Forall (fun r => exists s, s ∈ subs st /\ r = Stop (sid s)) out ->
  stop_follows_start (sent st ++ out).
Proof.
  intros Hall Hord Hout n i Hn.
  destruct (decide (n < length (sent st))) as [Hlt|Hge].
  - rewrite lookup_app_l in Hn by exact Hlt.
    destruct (Hord n i Hn) as (m & c & d & Hm & Hs). exists m, c, d.
    split; [exact Hm|]. apply lookup_app_l_Some, Hs.
  - rewrite lookup_app_r in Hn by lia.
    rewrite Forall_forall in Hout.
    destruct (Hout _ (list_elem_of_lookup_2 _ _ _ Hn)) as (s & Hs & Heq).
    injection Heq as ->.
    destruct (Hall s Hs) as (m & c & d & Hm). exists m, c, d. split.
    + apply lookup_lt_Some in Hm. lia.
    + apply lookup_app_l_Some, Hm.
Qed.

Lemma sweep_out_own f l :
  (forall s r, r ∈ (f s).2 -> r = Stop (sid s)) ->
  Forall (fun r => exists s, s ∈ l /\ r = Stop (sid s)) (sweep f l).2.
Proof.
  intros Hf. induction l as [|s l IH]; [constructor|].
  simpl. pose proof (Hf s) as Hs.
  destruct (f s) as [s' o], (sweep f l) as [l' o']. simpl in *.
  apply Forall_app. split.
  - apply Forall_forall. intros r Hr. exists s. split; [left|auto].
  - eapply Forall_impl; [exact IH|]. intros r (x & Hx & ->).
    exists x. split; [right; exact Hx|reflexivity].
Qed.

Lemma subscribe_ordered path c call st :
  all_started st /\ stop_follows_start (sent st) ->
  let st' := Wrap.subscribe generateId path c call st in
  all_started st' /\ stop_follows_start (sent st').
Proof.
  intros [Hall Hord]. simpl. split.
  - intros s Hs. simpl in Hs. apply elem_of_app in Hs as [Hs|Hs].
    + destruct (Hall s Hs) as (m & c' & d & Hm). exists m, c', d.
      simpl. apply lookup_app_l_Some, Hm.
    + apply list_elem_of_singleton in Hs as ->.
      exists (length (sent st)), (ccommand call), (cdata call). simpl.
      rewrite lookup_app_r, Nat.sub_diag by lia. reflexivity.
  - intros n i Hn. simpl in Hn.
    destruct (decide (n < length (sent st))) as [Hlt|Hge].
    + rewrite lookup_app_l in Hn by exact Hlt.
      destruct (Hord n i Hn) as (m & c' & d & Hm & Hs). exists m, c', d.
      split; [exact Hm|]. simpl. apply lookup_app_l_Some, Hs.
    + rewrite lookup_app_r in Hn by lia.
      destruct (n - length (sent st)) as [|[|k]] eqn:Hk;
        simpl in Hn; [discriminate| |].
      * destruct (stopped _); simpl in Hn; [|discriminate].
        injection Hn as <-.
        exists (length (sent st)), (ccommand call), (cdata call).
        split; [lia|]. simpl.
        rewrite lookup_app_r, Nat.sub_diag by lia. reflexivity.
      * destruct (stopped _); simpl in Hn; discriminate.
Qed.

Lemma step_ordered st e :
  all_started st /\ stop_follows_start (sent st) ->
  all_started (step st e) /\ stop_follows_start (sent (step st e)).
Proof.
  intros [Hall Hord].
  destruct e as [p|p d|c|c|k|r|]; simpl.
  - auto.
  - destruct (proxy_get p); auto.
  - destruct (calls st !! c); [|auto]. apply subscribe_ordered. auto.
  - destruct (calls st !! c) as [call|]; [|auto].
    destruct (cpromise call); [auto|].
    apply (subscribe_ordered PromisePath c call st). auto.
  - destruct (subs st !! k) as [s|] eqn:Hk; [|auto].
    destruct (spath s); [|auto]. simpl. split.
    + eapply (all_started_more st); [exact Hall|simpl; reflexivity|].
      simpl. rewrite list_fmap_insert. simpl. apply list_insert_id.
      rewrite list_lookup_fmap, Hk. reflexivity.
    + apply stop_follows_start_stops; [exact Hall|exact Hord|].
      apply Forall_forall. intros r Hr. exists s.
      split; [eapply list_elem_of_lookup_2, Hk|].
      apply (settle_stops_own s (unsubscribe (subscriber s))), Hr.
  - pose proof (sweep_sids (on_response r) (subs st) (on_response_sid r))
      as Hs.
    pose proof (sweep_out_own (on_response r) (subs st)
                  (on_response_stops_own r)) as Ho.
    destruct (sweep (on_response r) (subs st)) as [l o]. simpl in *. split.
    + eapply (all_started_more st); [exact Hall|simpl; reflexivity|exact Hs].
    + apply stop_follows_start_stops; assumption.
  - destruct (closed st).
    + simpl. rewrite app_nil_r. split; [|exact Hord].
      eapply (all_started_more st);
        [exact Hall|simpl; rewrite app_nil_r; reflexivity|reflexivity].
    + pose proof (sweep_sids (deliver (ErrorN closedError)) (subs st)
                    (deliver_sid _)) as Hs.
      pose proof (sweep_out_own (deliver (ErrorN closedError)) (subs st)
                    (deliver_stops_own _)) as Ho.
      destruct (sweep (deliver (ErrorN closedError)) (subs st)) as [l o].
      simpl in *. split.
      * eapply (all_started_more st);
          [exact Hall|simpl; reflexivity|exact Hs].
      * apply stop_follows_start_stops; assumption.
Qed.

(** X2.  On the wire every Stop message comes after a Start message
    carrying the same id: the teardown is only ever run for a
    subscription whose Start has been sent. *)
Theorem stop_only_after_start (tr : list Event) :
  stop_follows_start (sent (run init tr)).
Proof.
  apply (run_invariant generateId
           (fun st => all_started st /\ stop_follows_start (sent st))).
  - split; [intros s Hs; inversion Hs|]. intros n i Hn. discriminate.
  - intros st e. apply step_ordered.
Qed.

(** *** What a subscription is handed *)

Lemma closed_sub_step st e k s :
  subs st !! k = Some s -> is_open s = false ->
  subs (step st e) !! k = Some s.
Proof.
  intros Hk Hs. destruct e as [p|p d|c|c|j|r|]; simpl.
  - exact Hk.
  - destruct (proxy_get p); exact Hk.
  - destruct (calls st !! c); [|exact Hk]. simpl.
    apply lookup_app_l_Some, Hk.
  - destruct (calls st !! c) as [call|]; [|exact Hk].
    destruct (cpromise call); [exact Hk|]. simpl.
    apply lookup_app_l_Some, Hk.
  - destruct (subs st !! j) as [s'|] eqn:Hj; [|exact Hk].
    destruct (spath s'); [|exact Hk]. simpl.
    destruct (decide (j = k)) as [->|Hne].
    + rewrite Hk in Hj. injection Hj as <-.
      rewrite with_subscriber_same_closed by exact Hs.
      rewrite list_insert_id by exact Hk. exact Hk.
    + rewrite list_lookup_insert_ne by exact Hne. exact Hk.
  - pose proof (sweep_fst (on_response r) (subs st)) as Hl.
    destruct (sweep (on_response r) (subs st)) as [l o]. simpl in *. subst l.
    rewrite list_lookup_fmap, Hk. simpl.
    rewrite on_response_closed by exact Hs. reflexivity.
  - destruct (closed st); [exact Hk|].
    pose proof (sweep_fst (deliver (ErrorN closedError)) (subs st)) as Hl.
    destruct (sweep (deliver (ErrorN closedError)) (subs st)) as [l o].
    simpl in *. subst l. rewrite list_lookup_fmap, Hk. simpl.
    rewrite deliver_closed by exact Hs. reflexivity.
Qed.

(** X3.  Once a subscription has been torn down nothing reaches it any
    more: whatever responses arrive for its id afterwards, and whatever
    else happens, it keeps what it had been handed. *)
Theorem torn_down_is_final (st : State) (tr : list Event) (k : nat) (s : Sub) :
  subs st !! k = Some s ->
  is_open s = false ->
  subs (run st tr) !! k = Some s.
Proof.
  intros Hk Hs. induction tr as [|e tr IH] using rev_ind; [exact Hk|].
  rewrite wrap_run_snoc. apply closed_sub_step; assumption.
Qed.

(** X4.  A response whose id matches no open subscription changes
    nothing and has nothing sent. *)
Theorem unmatched_response_ignored (st : State) (r : Response) :
  (forall s, s ∈ subs st -> sid s = rid r -> is_open s = false) ->
  step st (Receive r) = st.
Proof.
  intros Hno. simpl. rewrite (sweep_same (on_response r) (subs st)).
  - rewrite app_nil_r. destruct st. reflexivity.
  - intros s Hs. unfold on_response. case_decide as Hid; [|reflexivity].
    apply deliver_closed, Hno; auto.
Qed.

Lemma receive_value_stream st k s v :
  subs st !! k = Some s -> is_open s = true -> spath s = StreamPath ->
  subs (step st (Receive (mkResponse (sid s) (NextN v)))) !! k
  = Some (with_subscriber s
            (mkSubscriber false (received (subscriber s) ++ [NextN v]))).
Proof.
  intros Hk Hs Hp. simpl.
  pose proof (sweep_fst (on_response (mkResponse (sid s) (NextN v))) (subs st))
    as Hl.
  destruct (sweep _ (subs st)) as [l o]. simpl in *. subst l.
  rewrite list_lookup_fmap, Hk. simpl. f_equal.
  unfold on_response. simpl. rewrite decide_True by reflexivity.
  unfold deliver, notify. rewrite Hp.
  unfold is_open in Hs. apply negb_true_iff in Hs. rewrite Hs. reflexivity.
Qed.

Lemma receive_values_stream vs : forall st k s,
  subs st !! k = Some s -> is_open s = true -> spath s = StreamPath ->
  subs (run st ((fun v => Receive (mkResponse (sid s) (NextN v))) <$> vs)) !! k
  = Some (with_subscriber s
            (mkSubscriber false (received (subscriber s) ++ (NextN <$> vs)))).
Proof.
  induction vs as [|v vs IH]; intros st k s Hk Hs Hp.
  - simpl. rewrite app_nil_r, Hk. f_equal.
    unfold is_open in Hs. apply negb_true_iff in Hs.
    destruct s as [i c p [b rc]]. simpl in *. subst b. reflexivity.
  - pose proof (receive_value_stream st k s v Hk Hs Hp) as H1.
    etransitivity; [exact (IH _ k _ H1 eq_refl Hp)|].
    simpl. rewrite <- app_assoc. reflexivity.
Qed.

(** X5.  On the stream path the values that arrive for the call's id are
    handed on one by one, in the order of arrival, and the terminal
    notification that follows them ends the subscription. *)
Theorem stream_delivers_in_order (st : State) (k : nat) (s : Sub)
  (vs : list Value) (t : Notification Value) :
  subs st !! k = Some s ->
  is_open s = true ->
  spath s = StreamPath ->
  is_terminal t = true ->
  subs (run st (((fun v => Receive (mkResponse (sid s) (NextN v))) <$> vs)
                ++ [Receive (mkResponse (sid s) t)])) !! k
  = Some (with_subscriber s
            (mkSubscriber true
               (received (subscriber s) ++ (NextN <$> vs) ++ [t]))).
Proof.
  intros Hk Hs Hp Ht. rewrite wrap_run_snoc.
  pose proof (receive_values_stream vs st k s Hk Hs Hp) as Hv.
  set (st' := Wrap.run generateId st _) in *. simpl.
  pose proof (sweep_fst (on_response (mkResponse (sid s) t)) (subs st')) as Hl.
  destruct (sweep _ (subs st')) as [l o]. simpl in *. subst l.
  rewrite list_lookup_fmap, Hv. simpl. f_equal.
  unfold on_response. simpl. rewrite decide_True by reflexivity.
  unfold deliver, notify. simpl. rewrite Hp, Ht, <- app_assoc.
  destruct t; reflexivity.
Qed.

(** *** The awaitable path *)

Lemma deliver_promises n s :
  (spath s = PromisePath -> is_open s = true -> received (subscriber s) = []) ->
  spath (deliver n s).1 = PromisePath -> is_open (deliver n s).1 = true ->
  received (subscriber (deliver n s).1) = [].
Proof.
  intros Hst. destruct (is_open s) eqn:Hs.
  - unfold deliver, settle, is_open, notify in *.
    apply negb_true_iff in Hs. rewrite Hs.
    destruct (spath s) eqn:Hp, n; simpl; intros; simpl in *; congruence.
  - rewrite deliver_closed by exact Hs. simpl. intros _ Ho. congruence.
Qed.

Lemma sweep_promises f l :
  (forall s,
      (spath s = PromisePath -> is_open s = true ->
       received (subscriber s) = []) ->
      spath (f s).1 = PromisePath -> is_open (f s).1 = true ->
      received (subscriber (f s).1) = []) ->
  (forall s, s ∈ l -> spath s = PromisePath -> is_open s = true ->
             received (subscriber s) = []) ->
  forall s, s ∈ (sweep f l).1 -> spath s = PromisePath -> is_open s = true ->
            received (subscriber s) = [].
Proof.
  intros Hf Hl s Hs. rewrite sweep_fst in Hs.
  apply list_elem_of_fmap in Hs as (s0 & -> & Hs0).
  apply Hf, Hl, Hs0.
Qed.

Lemma step_promises st e : promises_pending st -> promises_pending (step st e).
Proof.
  intros Hst. destruct e as [p|p d|c|c|k|r|]; simpl.
  - exact Hst.
  - destruct (proxy_get p); exact Hst.
  - destruct (calls st !! c); [|exact Hst].
    intros s Hs. simpl in Hs. apply elem_of_app in Hs as [Hs|Hs]; [auto|].
    apply list_elem_of_singleton in Hs as ->. discriminate.
  - destruct (calls st !! c) as [call|]; [|exact Hst].
    destruct (cpromise call); [exact Hst|].
    intros s Hs. simpl in Hs. apply elem_of_app in Hs as [Hs|Hs]; [auto|].
    apply list_elem_of_singleton in Hs as ->. simpl. intros _.
    unfold is_open. simpl. destruct (closed st); [discriminate|reflexivity].
  - destruct (subs st !! k) as [s'|] eqn:Hk; [|exact Hst].
    destruct (spath s') eqn:Hp; [|exact Hst].
    intros s Hs. simpl in Hs.
    apply list_elem_of_lookup in Hs as [j Hj].
    destruct (decide (k = j)) as [->|Hne].
    + rewrite list_lookup_insert_eq in Hj by (eapply lookup_lt_Some, Hk).
      injection Hj as <-. simpl. congruence.
    + rewrite list_lookup_insert_ne in Hj by exact Hne.
      apply Hst. eapply list_elem_of_lookup_2, Hj.
  - pose proof (sweep_promises (on_response r) (subs st)) as Hs.
    destruct (sweep (on_response r) (subs st)) as [l o]. simpl in *.
    unfold promises_pending. simpl. apply Hs; [|exact Hst].
    intros s Hp. unfold on_response. case_decide; [|exact Hp].
    apply deliver_promises, Hp.
  - destruct (closed st); [exact Hst|].
    pose proof (sweep_promises (deliver (ErrorN closedError)) (subs st)) as Hs.
    destruct (sweep (deliver (ErrorN closedError)) (subs st)) as [l o].
    simpl in *. unfold promises_pending. simpl. apply Hs; [|exact Hst].
    intros s Hp. apply deliver_promises, Hp.
Qed.

Lemma run_promises tr : promises_pending (run init tr).
Proof.
  apply run_invariant; [intros s Hs; inversion Hs|].
  intros st e. apply step_promises.
Qed.

(** X6.  On the awaitable path the first notification for the call's id
    settles the promise for good: a value resolves it, an error rejects
    it, a completion rejects it with EmptyError; the subscription is torn
    down with it, its Stop message is sent, and nothing that follows
    changes the outcome. *)
Theorem first_notification_settles (tr rest : list Event) (k : nat) (s : Sub)
  (n : Notification Value) :
  let st := run init tr in
  let st' := step st (Receive (mkResponse (sid s) n)) in
  subs st !! k = Some s ->
  is_open s = true ->
  spath s = PromisePath ->
  Stop (sid s) ∈ sent st' /\
  exists s',
    subs (run st' rest) !! k = Some s' /\
    is_open s' = false /\
    promise_state s' = Some (settlement n).
Proof.
  intros st st' Hk Hs Hp.
  assert (Hrc : received (subscriber s) = []).
  { apply (run_promises tr s); auto. eapply list_elem_of_lookup_2, Hk. }
  assert (Hst : stopped (subscriber s) = false).
  { unfold is_open in Hs. apply negb_true_iff, Hs. }
  set (s' := with_subscriber s (mkSubscriber true [n])).
  assert (Hd : deliver n s = (s', [Stop (sid s)])).
  { unfold deliver, settle, notify, teardown, is_open.
    rewrite Hp, Hst, Hrc. destruct n; reflexivity. }
  assert (Hk' : subs st' !! k = Some s').
  { subst st'. simpl.
    pose proof (sweep_fst (on_response (mkResponse (sid s) n)) (subs st)) as Hl.
    destruct (sweep _ (subs st)) as [l o]. simpl in *. subst l.
    rewrite list_lookup_fmap, Hk. simpl. unfold on_response. simpl.
    rewrite decide_True by reflexivity. rewrite Hd. reflexivity. }
  split.
  - subst st'. simpl.
    assert (Hout : Stop (sid s)
                   ∈ (sweep (on_response (mkResponse (sid s) n)) (subs st)).2).
    { clear Hk'. apply list_elem_of_lookup_2 in Hk. revert Hk.
      generalize (subs st). intros l Hin.
      induction l as [|x l IH]; [inversion Hin|]. simpl.
      apply elem_of_cons in Hin as [<-|Hin].
      - unfold on_response at 1. simpl. rewrite decide_True by reflexivity.
        rewrite Hd. destruct (sweep _ l). simpl. left.
      - specialize (IH Hin). destruct (on_response _ x), (sweep _ l).
        simpl in *. apply elem_of_app. right. exact IH. }
    destruct (sweep _ (subs st)) as [l o]. simpl in *.
    apply elem_of_app. right. exact Hout.
  - exists s'. split; [|split].
    + apply torn_down_is_final; [exact Hk'|reflexivity].
    + reflexivity.
    + destruct n; reflexivity.
Qed.

(** *** close and then, once more *)

(** X7.  [close()] sends the Stop message of every call that is still
    outstanding, in the order the calls were subscribed, before it closes
    the connection, and leaves no subscription open; when the Remote is
    closed already it sends nothing. *)
Theorem close_stops_outstanding (st : State) :
  sent (step st Close) =
    sent st ++
    (if closed st then []
     else (fun s => Stop (sid s))
            <$> filter (fun s => is_open s = true) (subs st))
  /\ conn_closed (step st Close) = S (conn_closed st)
  /\ (closed st = false ->
      Forall (fun s => is_open s = false) (subs (step st Close))).
Proof.
  simpl. destruct (closed st) eqn:Hc.
  - repeat split. discriminate.
  - pose proof (sweep_close_out (subs st)) as Ho.
    pose proof (sweep_fst (deliver (ErrorN closedError)) (subs st)) as Hl.
    destruct (sweep (deliver (ErrorN closedError)) (subs st)) as [l o].
    simpl in *. subst l o. repeat split. intros _.
    apply Forall_fmap, Forall_forall. intros s _. simpl.
    unfold is_open. rewrite deliver_terminal_stops; reflexivity.
Qed.

(** X8.  The promise of a call is lazy and made once: a second [then]
    on the same call object changes nothing, so it sends no second Start
    message. *)
Theorem then_is_idempotent (st : State) (c : nat) :
  step (step st (Then c)) (Then c) = step st (Then c).
Proof.
  simpl. destruct (calls st !! c) as [call|] eqn:Hc.
  - destruct (cpromise call) eqn:Hp.
    + rewrite Hc, Hp. reflexivity.
    + simpl. rewrite list_lookup_insert_eq by (eapply lookup_lt_Some, Hc).
      reflexivity.
  - rewrite Hc. reflexivity.
Qed.

(** *** Every teardown sends its Stop *)

Lemma on_response_out r s :
  (on_response r s).2 = if ended_by r s then [Stop (sid s)] else [].
Proof.
  unfold ended_by. destruct (is_open s) eqn:Ho.
  - unfold on_response. destruct (decide (rid r = sid s)) as [Hid|Hid].
    + rewrite (bool_decide_eq_true_2 _ Hid). simpl.
      unfold deliver, settle, teardown, notify. rewrite Ho.
      assert (Hs : stopped (subscriber s) = false)
        by (unfold is_open in Ho; apply negb_true_iff, Ho).
      rewrite Hs. destruct (spath s) eqn:Hp, (rnote r); simpl; reflexivity.
    + rewrite (bool_decide_eq_false_2 _ Hid). reflexivity.
  - rewrite on_response_closed by exact Ho. reflexivity.
Qed.

Lemma on_response_ends r s :
  ended_by r s = true -> is_open (on_response r s).1 = false.
Proof.
  unfold ended_by. intros He.
  apply andb_true_iff in He as [He Hn].
  apply andb_true_iff in He as [Ho Hid].
  apply bool_decide_eq_true_1 in Hid.
  assert (Hs : stopped (subscriber s) = false)
    by (unfold is_open in Ho; apply negb_true_iff, Ho).
  unfold on_response. rewrite decide_True by exact Hid.
  unfold deliver, settle, notify, is_open. rewrite Hs.
  destruct (spath s) eqn:Hp, (rnote r); simpl in *;
    try reflexivity; discriminate.
Qed.

Lemma sweep_receive_out r l :
  (sweep (on_response r) l).2
  = (fun s => Stop (sid s)) <$> filter (fun s => ended_by r s = true) l.
Proof.
  induction l as [|s l IH]; [reflexivity|].
  simpl. rewrite filter_cons. pose proof (on_response_out r s) as Ho.
  destruct (on_response r s) as [s' o], (sweep (on_response r) l) as [l' o'].
  simpl in *. subst o o'. destruct (ended_by r s).
  - rewrite decide_True by reflexivity. reflexivity.
  - rewrite decide_False by discriminate. reflexivity.
Qed.

(** C1, as amended.  In every state a Remote can reach:
    - for each id, the Stop messages sent so far are as many as the
      subscriptions with that id that have been torn down;
    - a response sends the Stop message of exactly the open
      subscriptions it ends, those with its id when its notification is
      terminal and, on the awaitable path, on any notification, the
      first value included, and these subscriptions are torn down by it;
    - [close()] sends the Stop message of exactly the subscriptions that
      are open and leaves none open;
    - a cancellation of a stream subscription tears it down: it sends
      the Stop message of its subscription when it finds it open, and
      nothing when it has been torn down already. *)
Theorem stop_sent_at_every_teardown (tr : list Event) :
  let st := run init tr in
  (forall i, stops_for i (sent st) = torn_down i (subs st)) /\
  (forall r,
      sent (step st (Receive r))
      = sent st ++ ((fun s => Stop (sid s))
                      <$> filter (fun s => ended_by r s = true) (subs st)) /\
      forall k s, subs st !! k = Some s -> ended_by r s = true ->
        exists s', subs (step st (Receive r)) !! k = Some s' /\
                   is_open s' = false) /\
  (sent (step st Close)
   = sent st ++ ((fun s => Stop (sid s))
                   <$> filter (fun s => is_open s = true) (subs st)) /\
   Forall (fun s => is_open s = false) (subs (step st Close))) /\
  (forall k,
      sent (step st (Unsubscribe k))
      = sent st ++
        match subs st !! k with
        | Some s =>
            if is_open s && bool_decide (spath s = StreamPath)
            then [Stop (sid s)] else []
        | None => []
        end /\
      forall s, subs st !! k = Some s -> spath s = StreamPath ->
        exists s', subs (step st (Unsubscribe k)) !! k = Some s' /\
                   is_open s' = false).
Proof.
  intros st. split; [apply run_accounted|]. split; [|split].
  - intros r. simpl.
    pose proof (sweep_receive_out r (subs st)) as Ho.
    pose proof (sweep_fst (on_response r) (subs st)) as Hl.
    destruct (sweep (on_response r) (subs st)) as [l o]. simpl in *.
    subst l o. split; [reflexivity|].
    intros k s Hk He. exists (on_response r s).1.
    split; [|apply on_response_ends, He].
    rewrite list_lookup_fmap, Hk. reflexivity.
  - pose proof (run_quiet generateId tr) as Hq. fold st in Hq.
    simpl. destruct (closed st) eqn:Hc.
    + specialize (Hq Hc). simpl.
      assert (Hall : Forall (fun s => is_open s = false) (subs st)).
      { eapply Forall_impl; [exact Hq|]. intros s Hs. unfold is_open.
        rewrite Hs. reflexivity. }
      split; [|exact Hall]. f_equal.
      clear -Hall. induction Hall as [|s l Hs _ IH]; [reflexivity|].
      rewrite filter_cons, decide_False by congruence. exact IH.
    + pose proof (sweep_close_out (subs st)) as Ho.
      pose proof (sweep_fst (deliver (ErrorN closedError)) (subs st)) as Hl.
      destruct (sweep (deliver (ErrorN closedError)) (subs st)) as [l o].
      simpl in *. subst l o. split; [reflexivity|].
      apply Forall_fmap, Forall_forall. intros s _. simpl.
      unfold is_open. rewrite deliver_terminal_stops; reflexivity.
  - intros k. simpl.
    destruct (subs st !! k) as [s|] eqn:Hk;
      [|split; [rewrite app_nil_r; reflexivity|discriminate]].
    destruct (spath s) eqn:Hp; simpl.
    + split; [rewrite !andb_true_r; reflexivity|].
      intros s0 Hs0 _. injection Hs0 as <-.
      exists (with_subscriber s (unsubscribe (subscriber s))).
      split; [|reflexivity].
      apply list_lookup_insert_eq. eapply lookup_lt_Some, Hk.
    + split; [rewrite andb_false_r, app_nil_r; reflexivity|].
      intros s0 Hs0 Hp0. injection Hs0 as <-. congruence.
Qed.

End Runs.

(** X9.  The incrementing generator hands out the same id twice exactly
    when both calls come after the counter has reached 2^53, where a
    JavaScript number no longer grows by one. *)
Theorem incrementingIdGenerator_collisions (n m : nat) :
  incrementingIdGenerator n = incrementingIdGenerator m <->
  n = m \/ ((2 ^ 53 <= Z.of_nat n)%Z /\ (2 ^ 53 <= Z.of_nat m)%Z).
Proof.
  unfold incrementingIdGenerator. split.
  - intros Heq. injection Heq as Heq. lia.
  - intros [->|[Hn Hm]]; [reflexivity|]. f_equal. lia.
Qed.

Lemma stop_sent_at_every_teardown_witness :
  let g := incrementingIdGenerator in
  let st := run g init [Invoke (PString "f") []; Subscribe 0; Then 0] in
  sent (step g st (Receive (mkResponse (IdNum 0) CompleteN)))
    = sent st ++ [Stop (IdNum 0)] /\
  sent (step g st (Receive (mkResponse (IdNum 1) (NextN (VNum 5)))))
    = sent st ++ [Stop (IdNum 1)] /\
  sent (step g st Close) = sent st ++ [Stop (IdNum 0); Stop (IdNum 1)] /\
  exists s', subs (step g st (Receive (mkResponse (IdNum 0) CompleteN))) !! 0
             = Some s' /\ is_open s' = false.
Proof.
  destruct (stop_sent_at_every_teardown incrementingIdGenerator
              [Invoke (PString "f") []; Subscribe 0; Then 0])
    as (_ & Hr & (Hc & _) & _).
  split; [|split; [|split]].
  - etransitivity; [exact (proj1 (Hr (mkResponse (IdNum 0) CompleteN)))|].
    reflexivity.
  - etransitivity;
      [exact (proj1 (Hr (mkResponse (IdNum 1) (NextN (VNum 5)))))|].
    reflexivity.
  - etransitivity; [exact Hc|]. reflexivity.
  - exact (proj2 (Hr (mkResponse (IdNum 0) CompleteN)) 0
             (mkSub (IdNum 0) 0 StreamPath fresh) eq_refl eq_refl).
Defined.

Lemma stop_only_after_start_witness :
  let tr := [Invoke (PString "f") []; Subscribe 0; Unsubscribe 0] in
  sent (run incrementingIdGenerator init tr) !! 1 = Some (Stop (IdNum 0)) /\
  exists m c d,
    m < 1 /\
    sent (run incrementingIdGenerator init tr) !! m
    = Some (Start (IdNum 0) c d).
Proof.
  split; [reflexivity|].
  exact (stop_only_after_start incrementingIdGenerator
           [Invoke (PString "f") []; Subscribe 0; Unsubscribe 0]
           1 (IdNum 0) eq_refl).
Defined.

Lemma close_stops_outstanding_witness :
  let g := incrementingIdGenerator in
  let st := run g init [Invoke (PString "f") []; Subscribe 0; Subscribe 0;
                        Unsubscribe 0] in
  closed st = false /\
  sent (step g st Close)
  = [Start (IdNum 0) "f" []; Start (IdNum 1) "f" []; Stop (IdNum 0);
     Stop (IdNum 1)] /\
  Forall (fun s => is_open s = false) (subs (step g st Close)).
Proof.
  destruct (close_stops_outstanding incrementingIdGenerator
              (run incrementingIdGenerator init
                 [Invoke (PString "f") []; Subscribe 0; Subscribe 0;
                  Unsubscribe 0])) as (Hs & _ & Hc).
  split; [reflexivity|]. split; [|exact (Hc eq_refl)].
  etransitivity; [exact Hs|]. reflexivity.
Defined.

Lemma torn_down_is_final_witness :
  let g := incrementingIdGenerator in
  let st := run g init [Invoke (PString "f") []; Subscribe 0;
                        Receive (mkResponse (IdNum 0) CompleteN)] in
  subs (run g st [Receive (mkResponse (IdNum 0) (NextN (VNum 5))); Close]) !! 0
  = Some (mkSub (IdNum 0) 0 StreamPath (mkSubscriber true [CompleteN])).
Proof.
  apply (torn_down_is_final incrementingIdGenerator
           (run incrementingIdGenerator init
              [Invoke (PString "f") []; Subscribe 0;
               Receive (mkResponse (IdNum 0) CompleteN)])
           [Receive (mkResponse (IdNum 0) (NextN (VNum 5))); Close] 0
           (mkSub (IdNum 0) 0 StreamPath (mkSubscriber true [CompleteN])));
    reflexivity.
Defined.

Lemma unmatched_response_ignored_witness :
  let g := incrementingIdGenerator in
  let st := run g init [Invoke (PString "f") []; Subscribe 0] in
  step g st (Receive (mkResponse (IdNum 7) (NextN (VNum 5)))) = st.
Proof.
  apply (unmatched_response_ignored incrementingIdGenerator
           (run incrementingIdGenerator init
              [Invoke (PString "f") []; Subscribe 0])
           (mkResponse (IdNum 7) (NextN (VNum 5)))).
  intros s Hs Hid.
  change (s ∈ [mkSub (IdNum 0) 0 StreamPath fresh]) in Hs.
  apply list_elem_of_singleton in Hs. subst s. discriminate Hid.
Defined.

Lemma stream_delivers_in_order_witness :
  let g := incrementingIdGenerator in
  let st := run g init [Invoke (PString "f") []; Subscribe 0] in
  subs (run g st [Receive (mkResponse (IdNum 0) (NextN (VNum 1)));
                  Receive (mkResponse (IdNum 0) (NextN (VNum 2)));
                  Receive (mkResponse (IdNum 0) CompleteN)]) !! 0
  = Some (mkSub (IdNum 0) 0 StreamPath
            (mkSubscriber true [NextN (VNum 1); NextN (VNum 2); CompleteN])).
Proof.
  apply (stream_delivers_in_order incrementingIdGenerator
           (run incrementingIdGenerator init
              [Invoke (PString "f") []; Subscribe 0])
           0 (mkSub (IdNum 0) 0 StreamPath fresh) [VNum 1; VNum 2] CompleteN);
    reflexivity.
Defined.

Lemma first_notification_settles_witness :
  let g := incrementingIdGenerator in
  let st := run g init [Invoke (PString "f") []; Then 0] in
  let st' := step g st (Receive (mkResponse (IdNum 0) (NextN (VNum 5)))) in
  Stop (IdNum 0) ∈ sent st' /\
  exists s',
    subs (run g st' [Receive (mkResponse (IdNum 0) (NextN (VNum 9)))]) !! 0
    = Some s' /\
    promise_state s' = Some (inl (VNum 5)).
Proof.
  destruct (first_notification_settles incrementingIdGenerator
              [Invoke (PString "f") []; Then 0]
              [Receive (mkResponse (IdNum 0) (NextN (VNum 9)))] 0
              (mkSub (IdNum 0) 0 PromisePath fresh) (NextN (VNum 5))
              eq_refl eq_refl eq_refl) as (Hstop & s' & Hk & _ & Hp).
  split; [exact Hstop|]. exists s'. split; [exact Hk|exact Hp].
Defined.

End WrapMore.

(** ** exposeMigrating: what the map holds *)

Module MigratingMore.
Import Migrating MigratingFacts.

Lemma active_lt st k : active st k = true -> k < length (receivers st).
Proof.
  unfold active. destruct (receivers st !! k) eqn:Hk; [|discriminate].
  intros _. eapply lookup_lt_Some, Hk.
Qed.

Lemma active_added cfg id ch st k :
  active (on_action cfg (Added id ch) st) k
  = if decide (k = length (receivers st)) then true else active st k.
Proof.
  unfold active. simpl. case_decide as Hk.
  - subst k. rewrite lookup_app_r, Nat.sub_diag by lia. reflexivity.
  - destruct (decide (k < length (receivers st))) as [Hlt|Hge].
    + rewrite lookup_app_l by exact Hlt. reflexivity.
    + rewrite !lookup_ge_None_2; [reflexivity|lia|].
      rewrite length_app. simpl. lia.
Qed.

Lemma active_removed cfg id st k :
  active (on_action cfg (Removed id) st) k
  = if decide (clients st !! id = Some k) then false else active st k.
Proof.
  unfold active. simpl. destruct (clients st !! id) as [j|] eqn:Hj.
  - rewrite list_lookup_alter. destruct (decide (j = k)) as [->|Hne].
    + rewrite decide_True by reflexivity.
      destruct (receivers st !! k); reflexivity.
    + rewrite decide_False by congruence. reflexivity.
  - rewrite decide_False by discriminate. reflexivity.
Qed.

Lemma live_clients_step cfg st e :
  live_clients st -> live_clients (step cfg st e).
Proof.
  intros [Hact Hinj]. destruct e as [[id ch|id]|]; unfold step.
  - destruct (cancelled st); [split; assumption|]. split.
    + intros id' k. rewrite active_added. simpl. intros Hk.
      case_decide; [reflexivity|].
      destruct (decide (id = id')) as [->|Hne].
      * rewrite lookup_insert_eq in Hk. congruence.
      * rewrite lookup_insert_ne in Hk by exact Hne. eapply Hact, Hk.
    + intros id1 id2 k. simpl. intros H1 H2.
      destruct (decide (id = id1)) as [E1|Hn1];
        destruct (decide (id = id2)) as [E2|Hn2]; [congruence| | |].
      * rewrite E1, lookup_insert_eq in H1. injection H1 as <-.
        rewrite lookup_insert_ne in H2 by exact Hn2.
        apply Hact, active_lt in H2. lia.
      * rewrite E2, lookup_insert_eq in H2. injection H2 as <-.
        rewrite lookup_insert_ne in H1 by exact Hn1.
        apply Hact, active_lt in H1. lia.
      * rewrite lookup_insert_ne in H1 by exact Hn1.
        rewrite lookup_insert_ne in H2 by exact Hn2. eapply Hinj; eauto.
  - destruct (cancelled st); [split; assumption|]. split.
    + intros id' k. rewrite active_removed. simpl. intros Hk.
      apply lookup_delete_Some in Hk as [Hne Hk].
      rewrite decide_False; [eapply Hact, Hk|].
      intros Hid. apply Hne. eapply Hinj; eauto.
    + intros id1 id2 k. simpl. intros H1 H2.
      apply lookup_delete_Some in H1 as [_ H1].
      apply lookup_delete_Some in H2 as [_ H2]. eapply Hinj; eauto.
  - split; assumption.
Qed.

(** X10.  Whatever the back end emits, every entry of the clients map
    names an exposer that is still subscribed, and no two backend ids
    share an exposer. *)
Theorem clients_are_live (cfg : Config) (tr : list Event) :
  live_clients (run cfg init tr).
Proof.
  induction tr as [|e tr IH] using rev_ind.
  - split; intros ? ?; simpl; intros; simplify_map_eq.
  - rewrite exposer_run_snoc. apply live_clients_step, IH.
Qed.

(** X11.  A removed event unsubscribes the exposer stored under its id
    and drops the entry; every other exposer and every other entry is
    left as it is. *)
Theorem removed_tears_down_only_its_own (cfg : Config) (st : State)
  (id : string) (k : nat) :
  let st' := step cfg st (Emit (Removed id)) in
  cancelled st = false ->
  clients st !! id = Some k ->
  active st' k = false /\
  clients st' !! id = None /\
  (forall j, j <> k -> active st' j = active st j) /\
  (forall id', id' <> id -> clients st' !! id' = clients st !! id').
Proof.
  intros st' Hc Hk. subst st'. unfold step. rewrite Hc.
  split; [|split; [|split]].
  - rewrite active_removed, decide_True by exact Hk. reflexivity.
  - simpl. apply lookup_delete_eq.
  - intros j Hj. rewrite active_removed, decide_False by congruence.
    reflexivity.
  - intros id' Hne. simpl. apply lookup_delete_ne. congruence.
Qed.

(** X12.  A removed event for an id that is not in the map changes
    nothing: no exposer is touched and nothing fails. *)
Theorem removed_unknown_is_noop (cfg : Config) (st : State) (id : string) :
  clients st !! id = None ->
  step cfg st (Emit (Removed id)) = st.
Proof.
  intros Hk. simpl. destruct (cancelled st) eqn:Hc; [reflexivity|].
  unfold on_action. rewrite Hk, delete_id by exact Hk.
  destruct st. simpl in *. subst. reflexivity.
Qed.

Lemma orphaned_step cfg k st e : orphaned k st -> orphaned k (step cfg st e).
Proof.
  intros [Hact Hno]. destruct e as [[id ch|id]|]; unfold step.
  - destruct (cancelled st); [split; assumption|]. split.
    + rewrite active_added. case_decide; [reflexivity|exact Hact].
    + intros id'. simpl. destruct (decide (id = id')) as [->|Hne].
      * rewrite lookup_insert_eq. apply active_lt in Hact.
        intros Heq. injection Heq as Heq. lia.
      * rewrite lookup_insert_ne by exact Hne. apply Hno.
  - destruct (cancelled st); [split; assumption|]. split.
    + rewrite active_removed, decide_False by apply Hno. exact Hact.
    + intros id'. simpl. intros Hk.
      apply lookup_delete_Some in Hk as [_ Hk]. eapply Hno, Hk.
  - split; assumption.
Qed.

(** X13.  An added event for an id that is already in the map replaces
    the entry without unsubscribing the exposer it held: that exposer
    stays subscribed whatever follows, and no later event can reach it. *)
Theorem readded_backend_orphans_exposer (cfg : Config) (tr rest : list Event)
  (id : string) (ch k : nat) :
  let st := run cfg init tr in
  let st' := step cfg st (Emit (Added id ch)) in
  cancelled st = false ->
  clients st !! id = Some k ->
  active (run cfg st' rest) k = true /\
  forall id', clients (run cfg st' rest) !! id' <> Some k.
Proof.
  intros st st' Hc Hk.
  destruct (clients_are_live cfg tr) as [Hact Hinj]. fold st in Hact, Hinj.
  assert (Ho : orphaned k st').
  { subst st'. unfold step. rewrite Hc. split.
    - rewrite active_added. case_decide; [reflexivity|]. eapply Hact, Hk.
    - intros id'. simpl. destruct (decide (id = id')) as [->|Hne].
      + rewrite lookup_insert_eq. apply Hact, active_lt in Hk.
        intros Heq. injection Heq as Heq. lia.
      + rewrite lookup_insert_ne by exact Hne. intros Hk'.
        apply Hne. eapply Hinj; eauto. }
  clear -Ho. induction rest as [|e rest IH] using rev_ind; [exact Ho|].
  rewrite exposer_run_snoc. apply orphaned_step, IH.
Qed.

Lemma clients_are_live_witness :
  let cfg := mkConfig (TValue 7) None in
  let st := run cfg init [Emit (Added "w1" 1); Emit (Added "w2" 2);
                          Emit (Removed "w1")] in
  clients st !! "w2" = Some 1 /\ active st 1 = true.
Proof.
  assert (Hk : clients
                 (run (mkConfig (TValue 7) None) init
                    [Emit (Added "w1" 1); Emit (Added "w2" 2);
                     Emit (Removed "w1")]) !! "w2" = Some 1) by reflexivity.
  split; [exact Hk|].
  exact (proj1 (clients_are_live (mkConfig (TValue 7) None) _) "w2" 1 Hk).
Defined.

Lemma removed_tears_down_only_its_own_witness :
  let cfg := mkConfig (TFactory String.length) None in
  let st := run cfg init [Emit (Added "w1" 1); Emit (Added "w2" 2)] in
  let st' := step cfg st (Emit (Removed "w1")) in
  active st' 0 = false /\ active st' 1 = true /\ clients st' !! "w2" = Some 1.
Proof.
  destruct (removed_tears_down_only_its_own
              (mkConfig (TFactory String.length) None)
              (run (mkConfig (TFactory String.length) None) init
                 [Emit (Added "w1" 1); Emit (Added "w2" 2)])
              "w1" 0 eq_refl eq_refl) as (H0 & _ & Hj & Hid).
  split; [exact H0|]. split.
  - rewrite (Hj 1) by discriminate. reflexivity.
  - rewrite (Hid "w2") by discriminate. reflexivity.
Defined.

Lemma removed_unknown_is_noop_witness :
  let cfg := mkConfig (TValue 7) None in
  let st := run cfg init [Emit (Added "w1" 1)] in
  step cfg st (Emit (Removed "w9")) = st.
Proof.
  apply (removed_unknown_is_noop (mkConfig (TValue 7) None)
           (run (mkConfig (TValue 7) None) init [Emit (Added "w1" 1)]) "w9").
  reflexivity.
Defined.

Lemma readded_backend_orphans_exposer_witness :
  let cfg := mkConfig (TValue 7) None in
  let st := run cfg init [Emit (Added "w1" 1); Emit (Added "w1" 2)] in
  active (run cfg st [Emit (Removed "w1"); Cancel]) 0 = true.
Proof.
  destruct (readded_backend_orphans_exposer (mkConfig (TValue 7) None)
              [Emit (Added "w1" 1)] [Emit (Removed "w1"); Cancel] "w1" 2 0
              eq_refl eq_refl) as [Hact _].
  exact Hact.
Defined.

End MigratingMore.

(** ** The registry: ends of sources, leftovers, tags *)

Module RegistryMore.
Import Registry RxFacts RegistryFacts.

Section WithTypes.

Context {K V : Type} `{Countable K}.

Implicit Types (st : State K V) (x : Inner K) (n : Notification (K * V)).

Lemma inner_open_iff st i :
  inner_open st i = true <->
  exists x, inners st !! i = Some x /\ iclosed x = false.
Proof.
  unfold inner_open. destruct (inners st !! i) as [x|]; split.
  - intros Hx. exists x. split; [reflexivity|]. apply negb_true_iff, Hx.
  - intros (y & Hy & Hc). injection Hy as <-. rewrite Hc. reflexivity.
  - discriminate.
  - intros (y & Hy & _). discriminate.
Qed.

Lemma all_closed_not_open st i :
  Forall (fun x => iclosed x = true) (inners st) -> inner_open st i = false.
Proof.
  intros Hall. unfold inner_open.
  destruct (inners st !! i) as [x|] eqn:Hx; [|reflexivity].
  rewrite Forall_forall in Hall.
  rewrite (Hall x (list_elem_of_lookup_2 _ _ _ Hx)). reflexivity.
Qed.

Lemma close_inner_closes i st :
  Forall (fun x => iclosed x = true) (inners st) ->
  Forall (fun x => iclosed x = true) (inners (close_inner i st)).
Proof.
  intros Hall. unfold close_inner.
  destruct (inners st !! i) as [x|]; [|exact Hall].
  simpl. apply Forall_insert; [exact Hall|reflexivity].
Qed.

Lemma close_inner_lookup i st k j :
  observables (close_inner i st) !! k = Some j -> observables st !! k = Some j.
Proof.
  unfold close_inner. destruct (inners st !! i) as [x|]; [|auto].
  simpl. apply finalize_lookup.
Qed.

Lemma close_all_lookup st k j :
  observables (close_all st) !! k = Some j -> observables st !! k = Some j.
Proof. unfold close_all. simpl. apply fold_finalize_lookup. Qed.

Lemma emit_lookup n st k j :
  observables (emit n st) !! k = Some j -> observables st !! k = Some j.
Proof.
  unfold emit. destruct (negb _ && _); [|auto].
  intros Hk. apply close_all_lookup in Hk. exact Hk.
Qed.

Lemma checkComplete_lookup st k j :
  observables (checkComplete st) !! k = Some j -> observables st !! k = Some j.
Proof.
  unfold checkComplete. destruct (_ && _); [apply emit_lookup|auto].
Qed.

(** *** Adding a source, seen as a whole *)

Lemma sync_open i x vs : forall st,
  inners st !! i = Some x -> iclosed x = false -> stopped (out st) = false ->
  fold_left (fun s v => inner_next i v s) vs st
  = set_out (mkSubscriber false
               (received (out st) ++ ((fun v => NextN (ikey x, v)) <$> vs)))
            st.
Proof.
  induction vs as [|v vs IH]; intros st Hx Hc Hs.
  - simpl. rewrite app_nil_r. destruct st as [m l a c [b rc]].
    simpl in *. subst b. reflexivity.
  - simpl. unfold inner_next at 2. rewrite Hx, Hc.
    rewrite emit_open by exact Hs. cbv zeta. simpl is_terminal. cbv iota.
    rewrite IH by (simpl; auto). simpl. rewrite <- app_assoc. reflexivity.
Qed.


Lemma add_completed_source key vs st :
  stopped (out st) = false ->
  isComplete st = false ->
  add key (mkSource vs (Some Completes)) st
  = mkState (delete key (<[key := length (inners st)]> (observables st)))
            (inners st ++ [mkInner key true false])
            (active st + 1 - 1)%Z false
            (mkSubscriber false
               (received (out st) ++ ((fun v => NextN (key, v)) <$> vs))).
Proof.
  intros Hs Hic. unfold add, subscribe_source.
  simpl sync_values. simpl sync_end.
  rewrite (sync_open _ (mkInner key false false)); simpl; auto;
    [|apply list_lookup_middle; reflexivity].
  unfold inner_complete, inner_open. simpl.
  rewrite list_lookup_middle by reflexivity. simpl.
  unfold close_inner. simpl. rewrite list_lookup_middle by reflexivity. simpl.
  unfold checkComplete. simpl. rewrite Hic. simpl.
  unfold add_teardown. simpl.
  rewrite insert_app_r_alt, Nat.sub_diag by lia. simpl.
  rewrite list_lookup_middle by reflexivity. simpl.
  unfold set_observables, finalize. simpl. rewrite Hic. reflexivity.
Qed.

Section Runs.

Variable opts : RegistryOptions.

Abbreviation step := (Registry.step (K := K) (V := V) opts).
Abbreviation run := (Registry.run (K := K) (V := V) opts).

Lemma open_inner_open_stream tr i :
  inner_open (run init tr) i = true -> stopped (out (run init tr)) = false.
Proof.
  intros Hi. destruct (consistent_run opts tr) as [_ Hd].
  destruct (stopped (out (run init tr))) eqn:Hs; [|reflexivity].
  rewrite (all_closed_not_open _ i (Hd Hs)) in Hi. discriminate.
Qed.

(** X14.  When the source of a registered key fails, the error ends the
    merged stream as a whole: the consumer is handed the error, every
    other source is unsubscribed with it, and the map is emptied. *)
Theorem source_error_ends_merged_stream (tr : list (Event K V)) (i : nat)
  (e : Err) :
  let st := run init tr in
  let st' := step st (SourceError i e) in
  inner_open st i = true ->
  out st' = mkSubscriber true (received (out st) ++ [ErrorN e]) /\
  observables st' = ∅ /\
  Forall (fun x => iclosed x = true) (inners st').
Proof.
  intros st st' Hi.
  pose proof (open_inner_open_stream tr i Hi) as Hopen. fold st in Hopen.
  destruct (consistent_run opts tr) as [Hidx _]. fold st in Hidx.
  subst st'. simpl. unfold inner_error. rewrite Hi.
  rewrite emit_open by exact Hopen. cbv zeta. simpl is_terminal. cbv iota.
  set (st1 := set_out _ st).
  assert (Hidx1 : indexed st1) by exact Hidx.
  split; [|split].
  - rewrite out_close_inner. reflexivity.
  - apply map_empty. intros k.
    destruct (observables (close_inner i (close_all st1)) !! k) as [j|] eqn:Hk;
      [|reflexivity].
    apply close_inner_lookup in Hk.
    rewrite close_all_empties in Hk by exact Hidx1. discriminate.
  - apply close_inner_closes, close_all_closes.
Qed.

(** X15.  Once the merged stream has stopped, for whatever reason, no
    source is left subscribed and the map is empty. *)
Theorem stopped_stream_holds_nothing (tr : list (Event K V)) :
  let st := run init tr in
  stopped (out st) = true ->
  observables st = ∅ /\ Forall (fun x => iclosed x = true) (inners st).
Proof.
  intros st Hs. destruct (consistent_run opts tr) as [Hidx Hd].
  fold st in Hidx, Hd. specialize (Hd Hs). split; [|exact Hd].
  apply map_empty. intros k.
  destruct (observables st !! k) as [j|] eqn:Hk; [|reflexivity].
  destruct (Hidx k j Hk) as (x & Hx & _ & Hc & _).
  rewrite Forall_forall in Hd.
  specialize (Hd x (list_elem_of_lookup_2 _ _ _ Hx)). congruence.
Qed.

(** X16.  When the source of a registered key completes, its
    subscription is closed and the key leaves the map, and no value is
    emitted on the way. *)
Theorem source_completion_forgets_key (tr : list (Event K V)) (key : K)
  (i : nat) :
  let st := run init tr in
  let st' := step st (SourceComplete i) in
  observables st !! key = Some i ->
  observables st' !! key = None /\
  inner_open st' i = false /\
  forall k, emitted_for k st' = emitted_for k st.
Proof.
  intros st st' Hk.
  destruct (consistent_run opts tr) as [Hidx _]. fold st in Hidx.
  destruct (Hidx key i Hk) as (x & Hx & Hkx & Hc & Ht).
  assert (Hi : inner_open st i = true).
  { apply inner_open_iff. eauto. }
  subst st'. simpl. split; [|split].
  - unfold inner_complete. rewrite Hi.
    destruct (observables (checkComplete _) !! key) as [j|] eqn:Hj;
      [|reflexivity].
    apply checkComplete_lookup in Hj. simpl in Hj.
    unfold close_inner in Hj. rewrite Hx in Hj. simpl in Hj.
    unfold finalize in Hj. rewrite Hc, Ht, Hkx, lookup_delete_eq in Hj.
    discriminate.
  - destruct (settles_lookup _ _ i (close x)
                (settles_checkComplete
                   (set_active (active (close_inner i st) - 1)%Z
                      (close_inner i st))))
      as (x' & Hx' & _ & _ & Hc').
    { simpl. unfold close_inner. rewrite Hx. simpl.
      apply list_lookup_insert_eq. eapply lookup_lt_Some, Hx. }
    unfold inner_complete. rewrite Hi. unfold inner_open. rewrite Hx'.
    rewrite Hc' by reflexivity. reflexivity.
  - intros k. apply emitted_inner_complete.
Qed.

(** X17.  A source that completes while it is being subscribed (one
    that has all its values at hand) is never registered: its values go
    out under the key, but the key is not in the map afterwards, even if
    it was there before.  Deleting that key on a strict registry right
    afterwards therefore fails the merged stream. *)
Theorem completed_source_is_not_registered (tr : list (Event K V)) (key : K)
  (src : Source V) :
  let st := run init tr in
  let st1 := step st (Act (Add key src)) in
  listening st = true ->
  sync_end src = Some Completes ->
  observables st1 !! key = None /\
  out st1 = mkSubscriber false
              (received (out st)
               ++ ((fun v => NextN (key, v)) <$> sync_values src)) /\
  (truthy (allowIncorrectIds opts) = false ->
   out (step st1 (Act (Delete key)))
   = mkSubscriber true (received (out st1) ++ [ErrorN removeError])).
Proof.
  intros st st1 Hl Hend. destruct src as [vs en]. simpl in Hend. subst en.
  assert (Hs : stopped (out st) = false) by (apply listening_open, Hl).
  assert (Hic : isComplete st = false).
  { apply andb_true_iff in Hl as [_ Hl]. apply negb_true_iff, Hl. }
  assert (H1 : st1 = add key (mkSource vs (Some Completes)) st).
  { subst st1. simpl. rewrite Hl. reflexivity. }
  rewrite H1, add_completed_source by assumption. simpl.
  split; [apply lookup_delete_eq|]. split; [reflexivity|].
  intros Hstrict. unfold listening. simpl.
  unfold delete_key. simpl. rewrite lookup_delete_eq, Hstrict. simpl.
  reflexivity.
Qed.


(** *** Tags *)

Lemma tagged_same st st' :
  out st' = out st -> ikey <$> inners st' = ikey <$> inners st ->
  tagged st -> tagged st'.
Proof. unfold tagged. intros -> ->. auto. Qed.

Lemma tagged_settles_same_out st st' :
  settles st st' -> out st' = out st -> tagged st -> tagged st'.
Proof. intros Hs Ho. apply tagged_same; [exact Ho|apply settles_keys, Hs]. Qed.

Lemma tagged_emit n st :
  (forall k v, n = NextN (k, v) -> k ∈ ikey <$> inners st) ->
  tagged st -> tagged (emit n st).
Proof.
  intros Hn Hst k v. rewrite (settles_keys _ _ (settles_emit n st)).
  destruct (stopped (out st)) eqn:Hs.
  - rewrite emit_stopped by exact Hs. apply Hst.
  - rewrite emit_open by exact Hs. cbv zeta.
    assert (Ho : forall st0 : State K V,
               out (if is_terminal n then close_all st0 else st0) = out st0).
    { intros st0. destruct (is_terminal n); reflexivity. }
    rewrite Ho. simpl. intros Hin. apply elem_of_app in Hin as [Hin|Hin].
    + eapply Hst, Hin.
    + apply list_elem_of_singleton in Hin. eapply Hn. symmetry. exact Hin.
Qed.

Lemma tagged_checkComplete st : tagged st -> tagged (checkComplete st).
Proof.
  intros Hst. unfold checkComplete. destruct (_ && _); [|exact Hst].
  apply tagged_emit; [intros; discriminate|exact Hst].
Qed.

Lemma tagged_close_inner i st : tagged st -> tagged (close_inner i st).
Proof.
  apply tagged_settles_same_out;
    [apply settles_close_inner|apply out_close_inner].
Qed.

Lemma tagged_inner_next i v st : tagged st -> tagged (inner_next i v st).
Proof.
  intros Hst. unfold inner_next.
  destruct (inners st !! i) as [x|] eqn:Hx; [|exact Hst].
  destruct (iclosed x); [exact Hst|].
  apply tagged_emit; [|exact Hst]. intros k v' Heq. injection Heq as <- _.
  apply list_elem_of_fmap. exists x. split; [reflexivity|].
  eapply list_elem_of_lookup_2, Hx.
Qed.

Lemma tagged_inner_complete i st : tagged st -> tagged (inner_complete i st).
Proof.
  intros Hst. unfold inner_complete. destruct (inner_open st i); [|exact Hst].
  apply tagged_checkComplete.
  apply (tagged_same (close_inner i st)); [reflexivity|reflexivity|].
  apply tagged_close_inner, Hst.
Qed.

Lemma tagged_inner_error i e st : tagged st -> tagged (inner_error i e st).
Proof.
  intros Hst. unfold inner_error. destruct (inner_open st i); [|exact Hst].
  apply tagged_close_inner, tagged_emit; [intros; discriminate|exact Hst].
Qed.

Lemma tagged_delete_key key st : tagged st -> tagged (delete_key opts key st).
Proof.
  intros Hst. unfold delete_key. destruct (_ && _).
  - apply tagged_emit; [intros; discriminate|].
    apply (tagged_same st); [reflexivity|reflexivity|exact Hst].
  - apply tagged_checkComplete. destruct (observables st !! key) as [i|].
    + apply (tagged_same (close_inner i st)); [reflexivity|reflexivity|].
      apply tagged_close_inner, Hst.
    + apply (tagged_same st); [reflexivity|reflexivity|exact Hst].
Qed.

Lemma tagged_sync i vs : forall st,
  tagged st -> tagged (fold_left (fun s v => inner_next i v s) vs st).
Proof.
  induction vs as [|v vs IH]; intros st Hst; [exact Hst|].
  simpl. apply IH, tagged_inner_next, Hst.
Qed.

Lemma tagged_add key src st : tagged st -> tagged (add key src st).
Proof.
  intros Hst. unfold add.
  apply (tagged_same
           (subscribe_source (length (inners st)) src
              (set_inners (inners st ++ [mkInner key false false])
                 (set_active (active st + 1)%Z st)))).
  - rewrite out_add_teardown. reflexivity.
  - rewrite add_teardown_keys. reflexivity.
  - unfold subscribe_source.
    assert (H1 : tagged (set_inners (inners st ++ [mkInner key false false])
                           (set_active (active st + 1)%Z st))).
    { intros k v Hin. simpl. rewrite fmap_app. apply elem_of_app. left.
      apply (Hst k v Hin). }
    destruct (sync_end src) as [[|e]|];
      auto using tagged_sync, tagged_inner_complete, tagged_inner_error.
Qed.

Lemma tagged_step st e : tagged st -> tagged (step st e).
Proof.
  intros Hst. destruct e as [[key src|key]| |e|i v|i|i e|]; simpl.
  - destruct (listening st); [apply tagged_add, Hst|exact Hst].
  - destruct (listening st); [apply tagged_delete_key, Hst|exact Hst].
  - destruct (listening st); [|exact Hst]. apply tagged_checkComplete.
    apply (tagged_same st); [reflexivity|reflexivity|exact Hst].
  - destruct (listening st); [|exact Hst].
    apply tagged_emit; [intros; discriminate|exact Hst].
  - apply tagged_inner_next, Hst.
  - apply tagged_inner_complete, Hst.
  - apply tagged_inner_error, Hst.
  - destruct (stopped (out st)); [exact Hst|].
    apply (tagged_settles_same_out (set_out (unsubscribe (out st)) st));
      [apply settles_close_all|reflexivity|].
    intros k v Hin. apply (Hst k v Hin).
Qed.

(** X19.  Every pair the merged stream emits carries a key that some
    add action has registered: nothing is ever emitted under a key
    that was not added. *)
Theorem emitted_keys_were_added (tr : list (Event K V)) (k : K) (v : V) :
  NextN (k, v) ∈ received (out (run init tr)) ->
  exists src, Act (Add k src) ∈ tr.
Proof.
  intros Hin. apply (keys_run opts tr k).
  revert k v Hin. change (tagged (run init tr)).
  induction tr as [|e tr IH] using rev_ind.
  - intros k v Hin. inversion Hin.
  - rewrite registry_run_snoc. apply tagged_step, IH.
Qed.

End Runs.

End WithTypes.

Lemma source_error_ends_merged_stream_witness :
  let strict := mkOptions None in
  let st := run strict init
              [Act (Add "a" (mkSource [1%Z] None));
               Act (Add "b" (mkSource [] None))] in
  let st' := step strict st (SourceError 0 (JsError "boom")) in
  out st' = mkSubscriber true [NextN ("a", 1%Z); ErrorN (JsError "boom")] /\
  observables st' = ∅ /\
  inner_open st' 1 = false.
Proof.
  destruct (source_error_ends_merged_stream (mkOptions None)
              [Act (Add "a" (mkSource [1%Z] None));
               Act (Add "b" (mkSource [] None))] 0 (JsError "boom") eq_refl)
    as (Ho & Hm & Hc).
  split; [exact Ho|]. split; [exact Hm|].
  apply all_closed_not_open, Hc.
Defined.

Lemma stopped_stream_holds_nothing_witness :
  let lenient := mkOptions (Some true) in
  let st := run lenient init
              [Act (Add "a" (mkSource [1%Z] None)); Cancel] in
  stopped (out st) = true /\ observables st = ∅ /\ inner_open st 0 = false.
Proof.
  destruct (stopped_stream_holds_nothing (mkOptions (Some true))
              [Act (Add "a" (mkSource [1%Z] None)); Cancel] eq_refl)
    as (Hm & Hc).
  split; [reflexivity|]. split; [exact Hm|].
  apply all_closed_not_open, Hc.
Defined.

Lemma source_completion_forgets_key_witness :
  let strict := mkOptions None in
  let st := run strict init [Act (Add "a" (mkSource [1%Z] None))] in
  observables st !! "a" = Some 0 /\
  observables (step strict st (SourceComplete 0)) !! "a" = None.
Proof.
  assert (Hin : observables
                  (run (mkOptions None) init
                     [Act (Add "a" (mkSource [1%Z] None))]) !! "a"
                = Some 0) by reflexivity.
  split; [exact Hin|].
  destruct (source_completion_forgets_key (mkOptions None)
              [Act (Add "a" (mkSource [1%Z] None))] "a" 0 Hin) as (Hk & _).
  exact Hk.
Defined.

Lemma completed_source_is_not_registered_witness :
  let strict := mkOptions None in
  let src := mkSource [1; 2; 3]%Z (Some Completes) in
  let st1 := step strict init (Act (Add "k1" src)) in
  observables st1 !! "k1" = None /\
  out (step strict st1 (Act (Delete "k1")))
  = mkSubscriber true
      [NextN ("k1", 1%Z); NextN ("k1", 2%Z); NextN ("k1", 3%Z);
       ErrorN removeError].
Proof.
  destruct (completed_source_is_not_registered (mkOptions None) [] "k1"
              (mkSource [1; 2; 3]%Z (Some Completes)) eq_refl eq_refl)
    as (Hk & Ho & Hd).
  split; [exact Hk|].
  etransitivity; [exact (Hd eq_refl)|]. rewrite Ho. reflexivity.
Defined.


Lemma emitted_keys_were_added_witness :
  let tr := [Act (Add "k1" (mkSource [1%Z] None))] in
  NextN ("k1", 1%Z) ∈ received (out (run (mkOptions None) init tr)) /\
  exists src, Act (Add "k1" src) ∈ tr.
Proof.
  assert (Hin : NextN ("k1", 1%Z)
                ∈ received (out (run (mkOptions None) init
                                   [Act (Add "k1" (mkSource [1%Z] None))]))).
  { change (NextN ("k1", 1%Z) ∈ [NextN ("k1", 1%Z)]). left. }
  split; [exact Hin|].
  exact (emitted_keys_were_added (mkOptions None) _ _ _ Hin).
Defined.

End RegistryMore.

(** ** The lock observable: its books *)

Module WebLockMore.
Import WebLock RxFacts WebLockFacts.

Lemma ledger_step st e :
  coherent st /\ ledger st -> coherent (step st e) /\ ledger (step st e).
Proof.
  intros [Hc Hl]. split; [apply coherent_step, Hc|].
  unfold coherent, ledger in *. destruct st as [r a l g n u [stp rc]].
  simpl in *. destruct Hl as (-> & -> & ->).
  destruct r, l; try (exfalso; exact Hc);
    destruct e as [| |e'| |]; simpl; try (repeat split; fail);
    crush_lock; destruct stp; crush_lock.
Qed.

Lemma ledger_run tr : coherent (run init tr) /\ ledger (run init tr).
Proof.
  induction tr as [|e tr IH] using rev_ind.
  - repeat split.
  - rewrite lock_run_snoc. apply ledger_step, IH.
Qed.

(** X20.  The teardown chains [release => release()] on the lock promise
    without a rejection handler: once an acquisition has failed or has
    been aborted and the promise has settled, exactly one rejection is
    left unhandled, carrying that error; an acquisition that succeeded
    leaves none. *)
Theorem one_unhandled_rejection_per_failure (tr : list Event) :
  let st := run init tr in
  unhandled st = match lock st with Failed e => [e] | _ => [] end.
Proof. intros st. apply (ledger_run tr). Qed.

(** X21.  The release function is called once when the lock ends up
    released and is not called otherwise, and the abort signal is
    raised exactly when the subscription has been torn down, by a
    cancellation or by an error. *)
Theorem release_called_once (tr : list Event) :
  let st := run init tr in
  releases st = match request st with Released => 1 | _ => 0 end /\
  aborted st = stopped (subscriber st).
Proof. intros st. apply (ledger_run tr). Qed.

Lemma over_step st e : over st -> over (step st e).
Proof.
  unfold over. destruct st as [r a l g n u [stp rc]]. simpl.
  destruct r; try contradiction; intros _;
    destruct e as [| |e'| |]; simpl; try exact I;
    try (destruct stp; simpl; destruct l; exact I);
    unfold settle; simpl; destruct l; try exact I;
    destruct stp, g; exact I.
Qed.

Lemma over_run st tr : over st -> over (run st tr).
Proof.
  intros Hst. induction tr as [|e tr IH] using rev_ind; [exact Hst|].
  rewrite lock_run_snoc. apply over_step, IH.
Qed.

(** X22.  No lock outlives its subscription.  Take one subscription of
    the lock observable and the events that concern it, none of which
    is another call of [subscribe] (that one makes a controller and a
    request of its own): once the subscription has been torn down and
    the reactions of its lock promise have run, its request does not
    hold the lock, and never holds it again. *)
Theorem no_lock_after_teardown (tr rest : list Event) :
  let st := run init (Subscribe :: tr) in
  Subscribe ∉ tr ->
  Subscribe ∉ rest ->
  stopped (subscriber st) = true ->
  request (run st (Settle :: rest)) <> Held.
Proof.
  intros st _ _ Hs.
  assert (Ho : over (step st Settle)).
  { pose proof (coherent_run (Subscribe :: tr)) as Hc. fold st in Hc.
    unfold coherent, over in *. destruct st as [r a l g n u [stp rc]].
    simpl in *. subst stp.
    destruct r, l; try (exfalso; exact Hc); crush_lock; exact I. }
  pose proof (over_run _ rest Ho) as Hr. unfold over in Hr.
  change (run st (Settle :: rest)) with (run (step st Settle) rest).
  intros Heq. rewrite Heq in Hr. exact Hr.
Qed.

Lemma no_lock_after_teardown_witness :
  let st := run init [Subscribe; Granted; Unsubscribe] in
  (Subscribe ∉ [Granted; Unsubscribe]) /\
  (Subscribe ∉ [Granted; Refused AbortError; Unsubscribe]) /\
  request st = Held /\
  request (run st [Settle; Granted; Refused AbortError; Unsubscribe])
  <> Held.
Proof.
  assert (H1 : Subscribe ∉ [Granted; Unsubscribe]).
  { intros Hin.
    repeat (apply elem_of_cons in Hin as [Hin|Hin]; [discriminate Hin|]).
    inversion Hin. }
  assert (H2 : Subscribe ∉ [Granted; Refused AbortError; Unsubscribe]).
  { intros Hin.
    repeat (apply elem_of_cons in Hin as [Hin|Hin]; [discriminate Hin|]).
    inversion Hin. }
  split; [exact H1|]. split; [exact H2|]. split; [reflexivity|].
  exact (no_lock_after_teardown [Granted; Unsubscribe]
           [Granted; Refused AbortError; Unsubscribe] H1 H2 eq_refl).
Defined.

End WebLockMore.

(** ** closing *)

Module ClosingFacts.
Import Closing.

Section WithFactory.

Context {T : Type}.
Variable factory : nat -> T.

Abbreviation step := (Closing.step factory).
Abbreviation run := (Closing.run factory).

Lemma closing_run_snoc st tr e : run st (tr ++ [e]) = step (run st tr) e.
Proof. unfold Closing.run. rewrite fold_left_app. reflexivity. Qed.

Lemma ended_app (l1 l2 : list (Sub T)) :
  ended (l1 ++ l2) = ended l1 ++ ended l2.
Proof. unfold ended. rewrite filter_app, fmap_app. reflexivity. Qed.

Lemma ended_one (s : Sub T) :
  ended [s] = if stopped (subscriber s) then [value s] else [].
Proof.
  unfold ended. rewrite filter_cons, filter_nil.
  destruct (stopped (subscriber s)).
  - rewrite decide_True by reflexivity. reflexivity.
  - rewrite decide_False by discriminate. reflexivity.
Qed.

Lemma ended_cons (s : Sub T) l : ended (s :: l) = ended [s] ++ ended l.
Proof. apply (ended_app [s] l). Qed.

Lemma served_step st e : served factory st -> served factory (step st e).
Proof.
  intros [Hn Hs]. destruct e as [once|k]; simpl.
  - split; simpl; [rewrite length_app; simpl; lia|].
    intros k s Hk. apply lookup_app_Some in Hk as [Hk|[Hge Hk]]; [auto|].
    destruct (k - length (subs st)) as [|j] eqn:Hj; [|discriminate].
    assert (k = length (subs st)) by lia. subst k. rewrite <- Hn.
    injection Hk as <-. destruct once; split; reflexivity.
  - destruct (subs st !! k) as [s|] eqn:Hk; [|split; assumption].
    destruct (stopped (subscriber s)); [split; assumption|].
    split; simpl; [rewrite length_insert; exact Hn|].
    intros j s' Hj. destruct (decide (k = j)) as [->|Hne].
    + rewrite list_lookup_insert_eq in Hj by (eapply lookup_lt_Some, Hk).
      injection Hj as <-. simpl. apply Hs, Hk.
    + rewrite list_lookup_insert_ne in Hj by exact Hne. apply Hs, Hj.
Qed.

Lemma closed_step st e :
  closed_with st ≡ₚ ended (subs st) ->
  closed_with (step st e) ≡ₚ ended (subs (step st e)).
Proof.
  intros Hst. destruct e as [once|k]; simpl.
  - rewrite ended_app, ended_one. simpl. rewrite Hst. reflexivity.
  - destruct (subs st !! k) as [s|] eqn:Hk; [|exact Hst].
    destruct (stopped (subscriber s)) eqn:Hs; [exact Hst|]. simpl.
    rewrite insert_take_drop by (eapply lookup_lt_Some, Hk).
    rewrite <- (take_drop_middle _ _ _ Hk) in Hst.
    rewrite ended_app, ended_cons, ended_one in *. simpl in *.
    rewrite Hs in Hst. simpl in Hst. rewrite Hst.
    rewrite <- app_assoc. apply Permutation_app_head.
    symmetry. apply Permutation_cons_append.
Qed.

(** X23.  Every subscription of a [closing] observable calls the factory
    once and is handed that value and nothing else, no completion
    either; [close] is called once for each subscription that has ended,
    with the value that subscription was given, and for no other. *)
Theorem closing_closes_what_it_made (tr : list Event) :
  let st := run init tr in
  made st = length (subs st) /\
  (forall k s, subs st !! k = Some s ->
     value s = factory k /\ received (subscriber s) = [NextN (factory k)]) /\
  closed_with st ≡ₚ ended (subs st).
Proof.
  induction tr as [|e tr IH] using rev_ind.
  - split; [reflexivity|]. split; [intros k s Hk; discriminate|reflexivity].
  - rewrite closing_run_snoc. cbv zeta in *. destruct IH as (Hn & Hs & Hc).
    destruct (served_step _ e (conj Hn Hs)) as [Hn' Hs'].
    split; [exact Hn'|]. split; [exact Hs'|]. apply closed_step, Hc.
Qed.

End WithFactory.

Lemma closing_closes_what_it_made_witness :
  let factory := fun n : nat => (10 + n)%nat in
  let st := Closing.run factory init
              [Subscribe false; Subscribe true; Unsubscribe 0; Unsubscribe 0] in
  subs st !! 0 = Some (mkSub 10 (mkSubscriber true [NextN 10])) /\
  value (mkSub 10 (mkSubscriber true [NextN 10])) = 10 /\
  closed_with st = [11; 10].
Proof.
  assert (Hk : subs (Closing.run (fun n : nat => (10 + n)%nat) init
                       [Subscribe false; Subscribe true; Unsubscribe 0;
                        Unsubscribe 0]) !! 0
               = Some (mkSub 10 (mkSubscriber true [NextN 10])))
    by reflexivity.
  split; [exact Hk|]. split; [|reflexivity].
  destruct (closing_closes_what_it_made (fun n : nat => (10 + n)%nat)
              [Subscribe false; Subscribe true; Unsubscribe 0; Unsubscribe 0])
    as (_ & Hs & _).
  exact (proj1 (Hs 0 _ Hk)).
Defined.

End ClosingFacts.
